(** * droid-patch: the binary patch engine (patcher.js)

    A shallow embedding of [patchDroid] and [findAllPositions], together
    with the part of Node's [Buffer] and [fs] interfaces that they call,
    and the properties of the engine stated in the specification. *)

From Stdlib Require Import ZArith Lia.
From Stdlib Require Import Strings.Byte Strings.String.
From stdpp Require Import base tactics option list gmap strings.

Local Open Scope Z_scope.

(** ** Node's [Buffer], as far as the engine uses it

    A buffer is its sequence of bytes.  Offsets are JavaScript numbers;
    the engine only produces integers, hence [Z], with [-1] the value
    [indexOf] answers when there is no match. *)

Module Buffer.

Abbreviation t := (list byte).

Definition length (b : t) : Z := Z.of_nat (List.length b).

Definition from (s : string) : t := list_byte_of_string s.

(** [value] is found at the very start of [rest]. *)
Fixpoint startsWith (value rest : t) : bool :=
  match value, rest with
  | [], _ => true
  | _ :: _, [] => false
  | v :: value', r :: rest' => Byte.eqb v r && startsWith value' rest'
  end.

(** Left-to-right search in [rest], the part of the buffer that starts
    at absolute offset [i]. *)
Fixpoint scan (value rest : t) (i : Z) : Z :=
  if startsWith value rest then i
  else match rest with
       | [] => -1
       | _ :: rest' => scan value rest' (i + 1)
       end.

(** [buf.indexOf(value, byteOffset)]: the first offset at or after
    [byteOffset] where [value] starts, [-1] when there is none.  A
    negative [byteOffset] counts from the end of the buffer; one past the
    end is the end.  For an empty [value] the answer is therefore the
    clamped [byteOffset], never [-1]. *)
Definition indexOf (buffer value : t) (byteOffset : Z) : Z :=
  let start :=
    if byteOffset <? 0 then Z.max 0 (length buffer + byteOffset)
    else Z.min byteOffset (length buffer) in
  scan value (drop (Z.to_nat start) buffer) start.

(** [buf.includes(value)] *)
Definition includes (buffer value : t) : bool :=
  negb (indexOf buffer value 0 =? -1).

(** [source.copy(target, targetStart)]: the bytes of [source] are written
    over [target] from [targetStart] on; what does not fit before the end
    of [target] is dropped, and [target] keeps its length.  The result is
    the new content of [target]. *)
Definition copy (source target : t) (targetStart : Z) : t :=
  let n := Z.to_nat targetStart in
  take n target
    ++ take (List.length target - n)%nat source
    ++ drop (n + List.length source)%nat target.

End Buffer.

(** ** [findAllPositions]

    The [while (true)] loop, with the number of iterations it may still make
    as an explicit bound: [None] says that the bound was reached before the
    loop left through [break]. *)

Fixpoint findAllPositions_loop (fuel : nat) (buffer pattern : Buffer.t)
    (positions : list Z) (pos : Z) : option (list Z) :=
  match fuel with
  | O => None
  | S fuel' =>
      let pos := Buffer.indexOf buffer pattern pos in
      if pos =? -1 then Some positions
      else findAllPositions_loop fuel' buffer pattern
             (positions ++ [pos]) (pos + Buffer.length pattern)
  end.

(** One more iteration than the buffer has bytes is enough for every loop
    that ends at all ([findAllPositions_loop_enough] and
    [findAllPositions_loop_empty] below), so [None] here is the loop that
    never reaches its [break]; [run] below says how such a loop ends. *)
Definition findAllPositions (buffer pattern : Buffer.t) : option (list Z) :=
  findAllPositions_loop (S (List.length buffer)) buffer pattern [] 0.

(** ** Occurrences

    [value] occurs in [buffer] at offset [p]: the bytes from [p] on start
    with the bytes of [value], one for one. *)
Definition matchesAt (buffer value : Buffer.t) (p : Z) : Prop :=
  0 ≤ p ≤ Buffer.length buffer ∧
  take (length value) (drop (Z.to_nat p) buffer) = value.

(** The occurrences found from the left without overlap, from offset [from]
    on: the leftmost occurrence at or after [from], then the leftmost one at
    or after its end, and so on until there is none. *)
Inductive greedy (buffer pattern : Buffer.t) : Z → list Z → Prop :=
  | greedy_nil from :
      (∀ q, from ≤ q → ¬ matchesAt buffer pattern q) →
      greedy buffer pattern from []
  | greedy_cons from p ps :
      from ≤ p →
      matchesAt buffer pattern p →
      (∀ q, from ≤ q < p → ¬ matchesAt buffer pattern q) →
      greedy buffer pattern (p + Buffer.length pattern) ps →
      greedy buffer pattern from (p :: ps).

(** ** The file system

    [fs/promises] and [existsSync], over a store that maps a path to what is
    there.  Path resolution is not modelled: the store is keyed by the path
    as it is written, so two spellings of one file ([droid] and [./droid],
    a link) are two keys here and one file on disk.  What is said below
    about files is therefore said of the path as the engine spells it and of
    the calls the engine makes, never of two spellings being two files.  The
    process is taken to be the unprivileged owner of every file, so the
    owner bits of the mode decide what it may read and write.  Besides the
    store, the world keeps the calls that changed it, in the order they were
    made. *)

Inductive node :=
  | File (data : Buffer.t) (mode : Z)
  | Directory.

Inductive fs_event :=
  | EvCopyFile (src dest : string)
  | EvWriteFile (path : string) (data : Buffer.t)
  | EvChmod (path : string) (mode : Z).

Record world := World {
  files : gmap string node;
  trace : list fs_event;
}.

Inductive error :=
  | BinaryNotFound (path : string)   (* [new Error(`Binary not found: ...`)] *)
  | RangeError                       (* [RangeError: Invalid array length] *)
  | ENOENT (path : string)
  | EISDIR (path : string)
  | EACCES (path : string).

(** What a call does: it returns, it throws, or it never comes back; in
    each case the world is the one it has made by then. *)
Inductive outcome (A : Type) :=
  | Returned (a : A) (w : world)
  | Threw (e : error) (w : world)
  | Hangs (w : world).
Arguments Returned {A} a w.
Arguments Threw {A} e w.
Arguments Hangs {A} w.

Definition world_of {A} (o : outcome A) : world :=
  match o with Returned _ w | Threw _ w | Hangs w => w end.

Definition M (A : Type) : Type := world → outcome A.

Definition ret {A} (a : A) : M A := λ w, Returned a w.
Definition throw {A} (e : error) : M A := λ w, Threw e w.
Definition bind {A B} (m : M A) (k : A → M B) : M B :=
  λ w, match m w with
       | Returned a w' => k a w'
       | Threw e w' => Threw e w'
       | Hangs w' => Hangs w'
       end.
(** A scan of the buffer.  One whose loop never reaches its [break] pushes
    offsets until the array cannot grow, and [positions.push] throws a
    [RangeError]. *)
Definition run {A} (o : option A) : M A :=
  λ w, match o with Some a => Returned a w | None => Threw RangeError w end.

Notation "'let*' x ':=' m 'in' k" := (bind m (λ x, k))
  (at level 10, x name, m at level 100, k at level 200, only parsing).

Definition S_IRUSR : Z := 256.   (* 0o400 *)
Definition S_IWUSR : Z := 128.   (* 0o200 *)

Definition readable (mode : Z) : bool := negb (Z.land mode S_IRUSR =? 0).
Definition writable (mode : Z) : bool := negb (Z.land mode S_IWUSR =? 0).

(** Mode of a file that [writeFile] creates: [0o666] under the usual umask,
    that is [0o644]. *)
Definition created_mode : Z := 420.

Definition existsSync (path : string) : M bool :=
  λ w, Returned (bool_decide (is_Some (files w !! path))) w.

(** [stat(path)], of which the engine reads [size] only. *)
Definition stat (path : string) : M Z :=
  λ w, match files w !! path with
       | None => Threw (ENOENT path) w
       | Some (File data _) => Returned (Buffer.length data) w
       | Some Directory => Returned 4096 w
       end.

Definition readFile (path : string) : M Buffer.t :=
  λ w, match files w !! path with
       | None => Threw (ENOENT path) w
       | Some Directory => Threw (EISDIR path) w
       | Some (File data mode) =>
           if readable mode then Returned data w else Threw (EACCES path) w
       end.

(** The store after [data] has been put at [path]: an existing file keeps
    its mode, a new one gets [mode]. *)
Definition store (path : string) (data : Buffer.t) (mode : Z) (w : world)
    : gmap string node + error :=
  match files w !! path with
  | None => inl (<[path := File data mode]> (files w))
  | Some Directory => inr (EISDIR path)
  | Some (File _ mode') =>
      if writable mode' then inl (<[path := File data mode']> (files w))
      else inr (EACCES path)
  end.

Definition writeFile (path : string) (data : Buffer.t) : M unit :=
  λ w, match store path data created_mode w with
       | inl fs => Returned tt (World fs (trace w ++ [EvWriteFile path data]))
       | inr e => Threw e w
       end.

(** [copyFile(src, dest)]: [dest] is overwritten when it exists. *)
Definition copyFile (src dest : string) : M unit :=
  λ w, match files w !! src with
       | None => Threw (ENOENT src) w
       | Some Directory => Threw (EISDIR src) w
       | Some (File data mode) =>
           if readable mode then
             match store dest data mode w with
             | inl fs => Returned tt (World fs (trace w ++ [EvCopyFile src dest]))
             | inr e => Threw e w
             end
           else Threw (EACCES src) w
       end.

Definition chmod (path : string) (mode : Z) : M unit :=
  λ w, match files w !! path with
       | None => Threw (ENOENT path) w
       | Some node =>
           let node' := match node with
                        | File data _ => File data mode
                        | Directory => Directory
                        end in
           Returned tt (World (<[path := node']> (files w))
                              (trace w ++ [EvChmod path mode]))
       end.

(** ** The data of the engine

    JavaScript objects, with a field that an object may lack as an
    [option]: [None] is [undefined]. *)

Module Patch.
Record t := Make {
  name : string;
  description : string;
  pattern : Buffer.t;
  replacement : Buffer.t;
}.
End Patch.

Module PatchResult.
Record t := Make {
  name : string;
  found : Z;
  positions : option (list Z);
  success : bool;
  alreadyPatched : option bool;
}.
End PatchResult.

Module Options.
Record t := Make {
  inputPath : string;
  outputPath : option string;
  patches : list Patch.t;
  dryRun : option bool;
  backup : option bool;
  verbose : option bool;
}.
End Options.

Module RunResult.
Record t := Make {
  success : bool;
  dryRun : option bool;
  outputPath : option string;
  results : list PatchResult.t;
  noPatchNeeded : option bool;
  patchedCount : option Z;
}.
End RunResult.

(** Truth value of a field that holds a boolean or is absent. *)
Definition truthy (b : option bool) : bool := default false b.

(** ** [patchDroid]

    What the engine prints is left out: [console.log], and with it
    [verbose], [getContext] and the note for macOS, change neither the
    files nor the result. *)

(** Body of the first loop, for one patch: the object pushed on [results],
    after the two assignments to it when the replacement is found. *)
Definition checkPatch (buffer : Buffer.t) (patch : Patch.t) : option PatchResult.t :=
  positions ← findAllPositions buffer (Patch.pattern patch);
  if Z.of_nat (length positions) =? 0 then
    let result :=
      PatchResult.Make (Patch.name patch) 0 None false
        (Some (Buffer.includes buffer (Patch.replacement patch))) in
    replacementPositions ← findAllPositions buffer (Patch.replacement patch);
    if Z.of_nat (length replacementPositions) >? 0 then
      Some (PatchResult.Make (PatchResult.name result) (PatchResult.found result)
              (PatchResult.positions result) true (Some true))
    else Some result
  else
    Some (PatchResult.Make (Patch.name patch) (Z.of_nat (length positions))
            (Some positions) true None).

(** [for (const patch of patches) { ... results.push(...) ... }] *)
Fixpoint checkPatches (buffer : Buffer.t) (patches : list Patch.t)
    (results : list PatchResult.t) : option (list PatchResult.t) :=
  match patches with
  | [] => Some results
  | patch :: patches' =>
      result ← checkPatch buffer patch;
      checkPatches buffer patches' (results ++ [result])
  end.

(** [r => r.found > 0 && !r.alreadyPatched] *)
Definition needed (r : PatchResult.t) : bool :=
  (PatchResult.found r >? 0) && negb (truthy (PatchResult.alreadyPatched r)).

(** The inner loop of the second pass: one [copy] per recorded position. *)
Definition applyPositions (replacement : Buffer.t) (positions : list Z)
    (st : Buffer.t * Z) : Buffer.t * Z :=
  fold_left (λ '(patchedBuffer, totalPatched) pos,
               (Buffer.copy replacement patchedBuffer pos, totalPatched + 1))
            positions st.

(** Body of the second pass, for one patch; [st] is [patchedBuffer] and
    [totalPatched]. *)
Definition applyPatch (results : list PatchResult.t) (st : Buffer.t * Z)
    (patch : Patch.t) : Buffer.t * Z :=
  match List.find (λ r, String.eqb (PatchResult.name r) (Patch.name patch)) results with
  | None => st
  | Some result =>
      match PatchResult.positions result with
      | None => st
      | Some positions => applyPositions (Patch.replacement patch) positions st
      end
  end.

Definition applyPatches (patches : list Patch.t) (results : list PatchResult.t)
    (buffer : Buffer.t) : Buffer.t * Z :=
  fold_left (applyPatch results) patches (buffer, 0).

(** The verification loop; [allVerified] is its flag. *)
Fixpoint verifyPatches (verifyBuffer : Buffer.t) (patches : list Patch.t)
    (allVerified : bool) : option bool :=
  match patches with
  | [] => Some allVerified
  | patch :: patches' =>
      oldPositions ← findAllPositions verifyBuffer (Patch.pattern patch);
      newPositions ← findAllPositions verifyBuffer (Patch.replacement patch);
      let oldCount := Z.of_nat (length oldPositions) in
      verifyPatches verifyBuffer patches'
        (if oldCount =? 0 then allVerified else false)
  end.

(** [outputPath || `${inputPath}.patched`] *)
Definition finalOutputPath (options : Options.t) : string :=
  match Options.outputPath options with
  | Some (String c s) => String c s
  | Some EmptyString | None => String.append (Options.inputPath options) ".patched"
  end.

Definition backupPath (options : Options.t) : string :=
  String.append (Options.inputPath options) ".backup".

Definition patchDroid (options : Options.t) : M RunResult.t :=
  let inputPath := Options.inputPath options in
  let patches := Options.patches options in
  let dryRun := default false (Options.dryRun options) in
  let backup := default true (Options.backup options) in
  let finalOutputPath := finalOutputPath options in
  let* input_exists := existsSync inputPath in
  if negb input_exists then throw (BinaryNotFound inputPath) else
  let* stats_size := stat inputPath in
  let* data := readFile inputPath in
  let buffer := data in
  let* results := run (checkPatches buffer patches []) in
  if dryRun then
    ret (RunResult.Make
           (forallb (λ r, PatchResult.success r || truthy (PatchResult.alreadyPatched r)) results)
           (Some true) None results None None)
  else
  let patchesNeeded := List.filter needed results in
  if Z.of_nat (length patchesNeeded) =? 0 then
    let allPatched := forallb (λ r, truthy (PatchResult.alreadyPatched r)) results in
    if allPatched then
      ret (RunResult.Make true None (Some inputPath) results (Some true) None)
    else
      ret (RunResult.Make false None None results None None)
  else
  let* _ :=
    if backup then
      let backupPath := backupPath options in
      let* backup_exists := existsSync backupPath in
      if negb backup_exists then copyFile inputPath backupPath else ret tt
    else ret tt in
  let '(patchedBuffer, totalPatched) := applyPatches patches results buffer in
  let* _ := writeFile finalOutputPath patchedBuffer in
  let* _ := chmod finalOutputPath 493 (* 0o755 *) in
  let* verifyBuffer := readFile finalOutputPath in
  let* allVerified := run (verifyPatches verifyBuffer patches true) in
  ret (RunResult.Make allVerified None (Some finalOutputPath) results None
         (Some totalPatched)).

(** *** The scenario of the specification *)

Definition isCustom : Patch.t :=
  Patch.Make "isCustom" "Change isCustom:!0 to isCustom:!1"
    (Buffer.from "isCustom:!0") (Buffer.from "isCustom:!1").

Definition droid_world : world :=
  World {[ "droid"%string := File (Buffer.from "xxisCustom:!0yyisCustom:!0zz") 493 ]} [].

Definition live (inputPath : string) (patches : list Patch.t) : Options.t :=
  Options.Make inputPath None patches None None None.

(** ** Vocabulary of the properties *)

(** The offsets the first loop records for a patch. *)
Definition occurrences (buffer : Buffer.t) (patch : Patch.t) : list Z :=
  default [] (findAllPositions buffer (Patch.pattern patch)).

Definition recorded (buffer : Buffer.t) (patches : list Patch.t)
    (patch : Patch.t) (pos : Z) : Prop :=
  patch ∈ patches ∧ pos ∈ occurrences buffer patch.

(** [out] is [buffer] with the replacement of every patch written over each
    of its recorded offsets, and nothing else changed. *)
Definition patched (buffer : Buffer.t) (patches : list Patch.t) (out : Buffer.t) : Prop :=
  length out = length buffer
  ∧ (∀ patch pos, recorded buffer patches patch pos →
       matchesAt out (Patch.replacement patch) pos)
  ∧ (∀ i : nat,
       (∀ patch pos, recorded buffer patches patch pos →
          ¬ (pos ≤ Z.of_nat i < pos + Buffer.length (Patch.replacement patch))) →
       out !! i = buffer !! i).

(** Occurrences of different patches do not overlap. *)
Definition apart (buffer : Buffer.t) (patches : list Patch.t) : Prop :=
  ∀ patch1 pos1 patch2 pos2,
    recorded buffer patches patch1 pos1 → recorded buffer patches patch2 pos2 →
    patch1 ≠ patch2 →
    pos1 + Buffer.length (Patch.pattern patch1) ≤ pos2
    ∨ pos2 + Buffer.length (Patch.pattern patch2) ≤ pos1.

Definition sameLength (patch : Patch.t) : Prop :=
  length (Patch.pattern patch) = length (Patch.replacement patch).

(** The writes of the second pass, in the order they are made: offset and
    bytes. *)
Definition writes (buffer : Buffer.t) (patches : list Patch.t) : list (Z * Buffer.t) :=
  flat_map (λ patch, map (λ pos, (pos, Patch.replacement patch)) (occurrences buffer patch))
           patches.

Definition applyWrites (ws : list (Z * Buffer.t)) (buffer : Buffer.t) : Buffer.t :=
  fold_left (λ b w, Buffer.copy w.2 b w.1) ws buffer.

Definition disjoint (w1 w2 : Z * Buffer.t) : Prop :=
  w1.1 + Buffer.length w1.2 ≤ w2.1 ∨ w2.1 + Buffer.length w2.2 ≤ w1.1.

Fixpoint pairwise {A} (R : A → A → Prop) (l : list A) : Prop :=
  match l with
  | [] => True
  | x :: l' => Forall (R x) l' ∧ pairwise R l'
  end.

(** The world once the backup step is over, for an input file with content
    [buffer] and mode [mode]. *)
Definition afterBackup (options : Options.t) (buffer : Buffer.t) (mode : Z)
    (w : world) : world :=
  if default true (Options.backup options)
     && negb (bool_decide (is_Some (files w !! backupPath options)))
  then World (<[backupPath options := File buffer mode]> (files w))
             (trace w ++ [EvCopyFile (Options.inputPath options) (backupPath options)])
  else w.

(** The world once the output has been written and made executable. *)
Definition afterWrite (path : string) (out : Buffer.t) (fs : gmap string node)
    (w : world) : world :=
  World (<[path := File out 493]> fs)
        ((trace w ++ [EvWriteFile path out]) ++ [EvChmod path 493]).

(** [byteOffset] brought back into the buffer, as [indexOf] does. *)
Definition clamp (buffer : Buffer.t) (byteOffset : Z) : Z :=
  Z.min byteOffset (Buffer.length buffer).

(** A write that lies inside the buffer. *)
Definition fits (buffer : Buffer.t) (w : Z * Buffer.t) : Prop :=
  0 ≤ w.1 ∧ w.1 + Buffer.length w.2 ≤ Buffer.length buffer.

(** Patterns and replacements that the scan can look for. *)
Definition wellFormed (patch : Patch.t) : Prop :=
  Patch.pattern patch ≠ [] ∧ Patch.replacement patch ≠ [].

(** *** Further scenarios *)

(** The buffer of the scenario once patched, and a run over it. *)
Definition isCustom_done : Buffer.t := Buffer.from "xxisCustom:!1yyisCustom:!1zz".

(** A dry run. *)
Definition dry (inputPath : string) (patches : list Patch.t) : Options.t :=
  Options.Make inputPath None patches (Some true) None None.

Definition droid_done_world : world :=
  World {[ "droid"%string := File isCustom_done 493 ]} [].

(** The backup of the original is overwritten by the output when the caller
    asks for the output at the path of the backup. *)
Definition output_over_backup : Options.t :=
  Options.Make "droid" (Some "droid.backup"%string) [isCustom] None None None.

Definition backed_up_world : world :=
  World {[ "droid"%string := File (Buffer.from "xxisCustom:!0yyisCustom:!0zz") 493;
           "droid.backup"%string := File (Buffer.from "pristine") 420 ]} [].

(** Two patches under one name: the second pass looks results up by name
    and gives the second patch the offsets of the first. *)
Definition twin1 : Patch.t := Patch.Make "twin" "aa to bb" (Buffer.from "aa") (Buffer.from "bb").
Definition twin2 : Patch.t := Patch.Make "twin" "cc to dd" (Buffer.from "cc") (Buffer.from "dd").

Definition twin_world : world :=
  World {[ "bin"%string := File (Buffer.from "aacc") 493 ]} [].

(** A patch that leaves an occurrence of its pattern behind: in ["aaa"] the
    scan finds ["aa"] once, at 0, and ["baa"] has it at 1. *)
Definition half : Patch.t := Patch.Make "half" "aa to ba" (Buffer.from "aa") (Buffer.from "ba").

Definition half_world : world :=
  World {[ "bin"%string := File (Buffer.from "aaa") 493 ]} [].

(** A replacement longer than its pattern: the output has the length of the
    input. *)
Definition longer : Patch.t := Patch.Make "longer" "ab to xyz" (Buffer.from "ab") (Buffer.from "xyz").

Definition longer_world : world :=
  World {[ "bin"%string := File (Buffer.from "abcd") 493 ]} [].

(** ** More of the code *)

(** *** [getContext]

    [buf.slice(start, end)]: the bytes from [start] up to, not including,
    [end]; a negative index counts from the end of the buffer, and both are
    brought back into it. *)
Definition slice (buffer : Buffer.t) (start end_ : Z) : Buffer.t :=
  let len := Buffer.length buffer in
  let inside i := if i <? 0 then Z.max 0 (len + i) else Z.min i len in
  take (Z.to_nat (inside end_ - inside start)) (drop (Z.to_nat (inside start)) buffer).

(** [c >= 32 && c < 127] *)
Definition printable (c : byte) : bool :=
  (32 <=? Z.of_N (Byte.to_N c)) && (Z.of_N (Byte.to_N c) <? 127).

(** The loop over the slice, [str] growing by one character per byte. *)
Definition getContext (buffer : Buffer.t) (position patternLength contextSize : Z)
    : string :=
  let start := Z.max 0 (position - contextSize) in
  let end_ := Z.min (Buffer.length buffer) (position + patternLength + contextSize) in
  let slice := slice buffer start end_ in
  fold_left (λ str c,
               if printable c then String.append str (String (Ascii.ascii_of_byte c) EmptyString)
               else String.append str ".")
            slice EmptyString.

(** What [getContext] shows for a byte. *)
Definition shown (c : byte) : Ascii.ascii :=
  if printable c then Ascii.ascii_of_byte c else Ascii.ascii_of_byte x2e.

(** *** The command line (cli.js, cli.ts)

    The patches the command line builds from its flags; [isCustom] above is
    the first of them. *)
Definition quote : string := String (Ascii.ascii_of_byte x22) EmptyString.

Definition skipLogin : Patch.t :=
  Patch.Make "skipLogin"
    (String.append "Replace process.env.FACTORY_API_KEY with "
       (String.append quote (String.append "fk-droid-patch-skip-00000" quote)))
    (Buffer.from "process.env.FACTORY_API_KEY")
    (x22 :: Buffer.from "fk-droid-patch-skip-00000" ++ [x22]).

(** [const patches = []; if (isCustom) patches.push(...); if (skipLogin)
    patches.push(...)] *)
Definition cliPatches (isCustomFlag skipLoginFlag : bool) : list Patch.t :=
  let patches := [] in
  let patches := if isCustomFlag then patches ++ [isCustom] else patches in
  if skipLoginFlag then patches ++ [skipLogin] else patches.

(** The action of the program in cli.js.  The process ends through
    [process.exit], unless a call never comes back, which the engine always
    does ([patchDroid_comes_back] below) and the making of the alias may
    not. *)
Inductive ended :=
  | Exit (code : Z) (w : world)
  | Never (w : world).

Module CliOptions.
Record t := Make {
  isCustom : option bool;
  dryRun : option bool;
  path : string;
  output : option string;
  backup : option bool;
  verbose : option bool;
}.
End CliOptions.

Section Cli.

(** [createAlias] of alias.js, with the path it is given, the name of the
    alias and [verbose]: any action on the world. *)
Variable createAlias : option string → string → option bool → M unit.

Definition action (alias : string) (options : CliOptions.t) (w : world) : ended :=
  if negb (truthy (CliOptions.isCustom options)) then Exit 1 w else
  let patches := cliPatches (truthy (CliOptions.isCustom options)) false in
  match patchDroid
          (Options.Make (CliOptions.path options) (CliOptions.output options) patches
             (CliOptions.dryRun options) (CliOptions.backup options)
             (CliOptions.verbose options)) w with
  | Returned result w' =>
      if truthy (CliOptions.dryRun options) then Exit 0 w' else
      if RunResult.success result then
        match createAlias (RunResult.outputPath result) alias
                          (CliOptions.verbose options) w' with
        | Returned _ w'' => Exit (if RunResult.success result then 0 else 1) w''
        | Threw _ w'' => Exit 1 w''
        | Hangs w'' => Never w''
        end
      else Exit (if RunResult.success result then 0 else 1) w'
  | Threw _ w' => Exit 1 w'
  | Hangs w' => Never w'
  end.

End Cli.

(** *** Vocabulary of the further properties *)

(** [totalPatched] when every result is used once. *)
Definition sumFound (results : list PatchResult.t) : Z :=
  foldr (λ result n, PatchResult.found result + n) 0 results.

(** The second run: the engine on the output of the first. *)
Definition again (options : Options.t) : Options.t :=
  Options.Make (finalOutputPath options) None (Options.patches options)
    (Options.dryRun options) (Options.backup options) (Options.verbose options).

(** A patch that replaces by nothing, and a binary without its pattern. *)
Definition blank : Patch.t := Patch.Make "blank" "qq to nothing" (Buffer.from "qq") [].

Definition blank_world : world :=
  World {[ "bin"%string := File (Buffer.from "another binary") 493 ]} [].

(** Two patches whose occurrences come in the other order in the file. *)
Definition swapped_world : world :=
  World {[ "bin"%string := File (Buffer.from "cc--aa") 493 ]} [].

(** * Properties *)

(** ** Running the model *)

Example findAllPositions_isCustom :
  findAllPositions (Buffer.from "xxisCustom:!0yyisCustom:!0zz")
                   (Buffer.from "isCustom:!0") = Some [2; 15].
Proof. reflexivity. Qed.

Example findAllPositions_self_overlap :
  findAllPositions (Buffer.from "aaaaa") (Buffer.from "aa") = Some [0; 2].
Proof. reflexivity. Qed.

Example copy_truncates :
  Buffer.copy (Buffer.from "XYZ") (Buffer.from "abcd") 2 = Buffer.from "abXY".
Proof. reflexivity. Qed.

Example patchDroid_isCustom :
  patchDroid (live "droid" [isCustom]) droid_world =
  Returned
    (RunResult.Make true None (Some "droid.patched"%string)
       [PatchResult.Make "isCustom" 2 (Some [2; 15]) true None] None (Some 2))
    (World
       (<["droid.patched"%string := File (Buffer.from "xxisCustom:!1yyisCustom:!1zz") 493]>
       (<["droid.backup"%string := File (Buffer.from "xxisCustom:!0yyisCustom:!0zz") 493]>
          (files droid_world)))
       [EvCopyFile "droid" "droid.backup";
        EvWriteFile "droid.patched" (Buffer.from "xxisCustom:!1yyisCustom:!1zz");
        EvChmod "droid.patched" 493]).
Proof. vm_compute. reflexivity. Qed.

(** Neither the pattern nor the replacement is in the buffer. *)
Example checkPatch_absent :
  checkPatch (Buffer.from "another binary") isCustom =
  Some (PatchResult.Make "isCustom" 0 None false (Some false)).
Proof. reflexivity. Qed.

(** The engine run again, on what it has patched: nothing is found, the
    patch is already applied, the world stays as it is. *)
Example patchDroid_again :
  patchDroid (live "droid" [isCustom]) droid_done_world =
  Returned
    (RunResult.Make true None (Some "droid"%string)
       [PatchResult.Make "isCustom" 0 None true (Some true)] (Some true) None)
    droid_done_world.
Proof. vm_compute. reflexivity. Qed.

(** ** [indexOf] *)

Section IndexOf.
Implicit Types buffer value rest : Buffer.t.

Lemma startsWith_take value rest :
  Buffer.startsWith value rest = true ↔ take (length value) rest = value.
Proof.
  revert rest. induction value as [|v value IH]; intros [|r rest]; simpl; try easy.
  rewrite andb_true_iff, IH. split.
  - intros [Hv ->]. by rewrite (byte_dec_bl _ _ Hv).
  - intros [= -> ->]. split; [by apply byte_dec_lb | done].
Qed.

Lemma matchesAt_startsWith buffer value p :
  matchesAt buffer value p ↔
  0 ≤ p ≤ Buffer.length buffer ∧
  Buffer.startsWith value (drop (Z.to_nat p) buffer) = true.
Proof. unfold matchesAt. by rewrite startsWith_take. Qed.

(** An occurrence lies inside the buffer. *)
Lemma matchesAt_bound buffer value p :
  matchesAt buffer value p → 0 ≤ p ∧ p + Buffer.length value ≤ Buffer.length buffer.
Proof.
  intros [Hp Htake]. split; [lia|].
  apply (f_equal length) in Htake. rewrite length_take, length_drop in Htake.
  unfold Buffer.length in *. lia.
Qed.

Lemma startsWith_nil_false value : value ≠ [] → Buffer.startsWith value [] = false.
Proof. by destruct value. Qed.

Lemma scan_cases value rest i :
  (Buffer.scan value rest i = -1 ∧
     ∀ k : nat, Buffer.startsWith value (drop k rest) = false)
  ∨ (∃ k : nat, Buffer.scan value rest i = i + Z.of_nat k ∧
       (k ≤ length rest)%nat ∧
       Buffer.startsWith value (drop k rest) = true ∧
       ∀ j : nat, (j < k)%nat → Buffer.startsWith value (drop j rest) = false).
Proof.
  revert i. induction rest as [|r rest IH]; intros i; simpl.
  - destruct (Buffer.startsWith value []) eqn:Hs.
    + right. exists 0%nat. repeat split; [lia | done | done | lia].
    + left. split; [done|]. intros k. by rewrite drop_nil.
  - destruct (Buffer.startsWith value (r :: rest)) eqn:Hs.
    + right. exists 0%nat. simpl. repeat split; [lia | lia | done | lia].
    + destruct (IH (i + 1)) as [[-> Hnone] | (k & -> & Hk & Hyes & Hno)].
      * left. split; [done|]. intros [|k]; [done | apply Hnone].
      * right. exists (S k). simpl. repeat split; [lia | lia | done |].
        intros [|j] Hj; [done | apply Hno; lia].
Qed.

Lemma indexOf_unfold buffer value byteOffset :
  0 ≤ byteOffset →
  Buffer.indexOf buffer value byteOffset =
  Buffer.scan value (drop (Z.to_nat (clamp buffer byteOffset)) buffer)
              (clamp buffer byteOffset).
Proof.
  intros H. unfold Buffer.indexOf, clamp.
  by destruct (Z.ltb_spec byteOffset 0); [lia|].
Qed.

(** No answer: no occurrence at or after [byteOffset]. *)
Lemma indexOf_none buffer value byteOffset :
  0 ≤ byteOffset →
  Buffer.indexOf buffer value byteOffset = -1 →
  ∀ q, byteOffset ≤ q → ¬ matchesAt buffer value q.
Proof.
  intros H0. rewrite indexOf_unfold by done.
  assert (Hc : 0 ≤ clamp buffer byteOffset ≤ byteOffset)
    by (unfold clamp, Buffer.length; lia).
  destruct (scan_cases value (drop (Z.to_nat (clamp buffer byteOffset)) buffer)
              (clamp buffer byteOffset)) as [[_ Hnone] | (k & -> & _)]; [|lia].
  intros _ q Hq [_ Hm]%matchesAt_startsWith.
  specialize (Hnone (Z.to_nat q - Z.to_nat (clamp buffer byteOffset))%nat).
  rewrite drop_drop in Hnone.
  replace (_ + _)%nat with (Z.to_nat q) in Hnone by lia. congruence.
Qed.

(** An answer is the leftmost occurrence at or after [byteOffset]. *)
Lemma indexOf_some buffer value byteOffset :
  0 ≤ byteOffset → value ≠ [] →
  Buffer.indexOf buffer value byteOffset ≠ -1 →
  let p := Buffer.indexOf buffer value byteOffset in
  byteOffset ≤ p ∧ matchesAt buffer value p ∧
  ∀ q, byteOffset ≤ q < p → ¬ matchesAt buffer value q.
Proof.
  intros H0 Hne. rewrite indexOf_unfold by done.
  set (c := clamp buffer byteOffset).
  assert (Hc : 0 ≤ c ≤ byteOffset ∧ c ≤ Buffer.length buffer)
    by (unfold c, clamp, Buffer.length; lia).
  destruct (scan_cases value (drop (Z.to_nat c) buffer) c)
    as [[-> _] | (k & -> & Hk & Hyes & Hno)]; [done|].
  intros _. simpl.
  rewrite drop_drop in Hyes.
  assert (Hm : matchesAt buffer value (c + Z.of_nat k)).
  { apply matchesAt_startsWith. rewrite length_drop in Hk.
    split; [unfold Buffer.length in *; lia|].
    by replace (Z.to_nat (c + Z.of_nat k)) with (Z.to_nat c + k)%nat by lia. }
  assert (c = byteOffset) as Hcb.
  { apply matchesAt_bound in Hm. unfold c, clamp in *.
    assert (0 < Buffer.length value)
      by (unfold Buffer.length; destruct value; simpl; [done | lia]).
    lia. }
  split; [lia|]. split; [done|].
  intros q Hq [_ Hmq]%matchesAt_startsWith.
  specialize (Hno (Z.to_nat q - Z.to_nat c)%nat).
  rewrite drop_drop in Hno.
  replace (_ + _)%nat with (Z.to_nat q) in Hno by lia.
  rewrite Hno in Hmq by lia. done.
Qed.

(** For the empty sequence [indexOf] never answers [-1]. *)
Lemma indexOf_empty buffer byteOffset :
  Buffer.indexOf buffer [] byteOffset ≠ -1.
Proof.
  unfold Buffer.indexOf, Buffer.length.
  destruct (byteOffset <? 0) eqn:E.
  - destruct (drop _ buffer); simpl; lia.
  - apply Z.ltb_ge in E. destruct (drop _ buffer); simpl; lia.
Qed.

End IndexOf.

(** ** The scanning loop *)

Section Scan.
Implicit Types buffer pattern : Buffer.t.

Lemma length_pos pattern : pattern ≠ [] → 0 < Buffer.length pattern.
Proof. unfold Buffer.length. destruct pattern; simpl; [done | lia]. Qed.

(** With a non-empty pattern the cursor moves on by at least one byte per
    match and a match ends inside the buffer: the loop leaves within as
    many iterations as bytes remain, plus the one that finds nothing. *)
Lemma findAllPositions_loop_enough fuel buffer pattern positions pos :
  pattern ≠ [] → 0 ≤ pos →
  Z.max 0 (Buffer.length buffer - pos) < Z.of_nat fuel →
  ∃ found,
    findAllPositions_loop fuel buffer pattern positions pos = Some (positions ++ found)
    ∧ greedy buffer pattern pos found.
Proof.
  intros Hne. revert positions pos.
  induction fuel as [|fuel IH]; intros positions pos Hpos Hfuel; [lia|].
  simpl. destruct (Z.eqb_spec (Buffer.indexOf buffer pattern pos) (-1)) as [E|E].
  - exists []. rewrite app_nil_r. split; [done|].
    constructor. by apply indexOf_none.
  - destruct (indexOf_some buffer pattern pos Hpos Hne E) as (Hle & Hm & Hleft).
    pose proof (matchesAt_bound _ _ _ Hm) as [_ Hb].
    pose proof (length_pos _ Hne) as Hl.
    destruct (IH (positions ++ [Buffer.indexOf buffer pattern pos])
                 (Buffer.indexOf buffer pattern pos + Buffer.length pattern))
      as (found & -> & Hg); [lia | lia |].
    exists (Buffer.indexOf buffer pattern pos :: found).
    rewrite <- app_assoc. split; [done|]. by constructor.
Qed.

(** With the empty pattern the cursor never moves and [indexOf] always
    answers: no number of iterations reaches the [break]. *)
Lemma findAllPositions_loop_empty fuel buffer positions pos :
  findAllPositions_loop fuel buffer [] positions pos = None.
Proof.
  revert positions pos. induction fuel as [|fuel IH]; intros; [done|].
  simpl. destruct (Z.eqb_spec (Buffer.indexOf buffer [] pos) (-1)) as [E|E].
  - by apply indexOf_empty in E.
  - apply IH.
Qed.

Lemma greedy_functional buffer pattern from l1 l2 :
  greedy buffer pattern from l1 → greedy buffer pattern from l2 → l1 = l2.
Proof.
  intros H1. revert l2.
  induction H1 as [from Hnone | from p ps Hle Hm Hleft _ IH]; intros l2 H2.
  - inversion H2 as [| ? q ? Hq Hmq]; subst; [done|]. by destruct (Hnone q).
  - inversion H2 as [? Hnone | ? q qs Hq Hmq Hqleft Hrest]; subst.
    + by destruct (Hnone p).
    + assert (p = q) as ->.
      { destruct (Z.lt_trichotomy p q) as [?|[?|?]]; [|done|].
        - destruct (Hqleft p); [lia | done].
        - destruct (Hleft q); [lia | done]. }
      f_equal. by apply IH.
Qed.

Lemma findAllPositions_greedy buffer pattern :
  pattern ≠ [] →
  ∃ positions,
    findAllPositions buffer pattern = Some positions ∧ greedy buffer pattern 0 positions.
Proof.
  intros Hne.
  destruct (findAllPositions_loop_enough (S (length buffer)) buffer pattern [] 0)
    as (found & Hrun & Hg); [done | lia | unfold Buffer.length; lia |].
  by exists found.
Qed.

Lemma findAllPositions_empty buffer : findAllPositions buffer [] = None.
Proof. apply findAllPositions_loop_empty. Qed.

Lemma findAllPositions_nonempty buffer pattern positions :
  findAllPositions buffer pattern = Some positions → pattern ≠ [].
Proof. intros H ->. by rewrite findAllPositions_empty in H. Qed.

Lemma findAllPositions_Some_greedy buffer pattern positions :
  findAllPositions buffer pattern = Some positions → greedy buffer pattern 0 positions.
Proof.
  intros H. pose proof (findAllPositions_nonempty _ _ _ H) as Hne.
  destruct (findAllPositions_greedy buffer pattern Hne) as (l & Hl & Hg). congruence.
Qed.

(** What follows from being found greedily. *)
Lemma greedy_Forall buffer pattern from positions :
  greedy buffer pattern from positions →
  Forall (λ p, from ≤ p ∧ matchesAt buffer pattern p) positions.
Proof.
  induction 1 as [|from p ps Hle Hm _ _ IH]; constructor; [done|].
  pose proof (matchesAt_bound _ _ _ Hm).
  eapply Forall_impl; [exact IH|]. simpl. intros q [? ?]. split; [|done].
  unfold Buffer.length in *. lia.
Qed.

Lemma greedy_lookup buffer pattern from positions i p :
  greedy buffer pattern from positions → positions !! i = Some p →
  from ≤ p ∧ matchesAt buffer pattern p ∧
  greedy buffer pattern (p + Buffer.length pattern) (drop (S i) positions).
Proof.
  intros Hg. revert i. induction Hg as [|from q ps Hle Hm _ Hrest IH]; intros i Hi; [done|].
  destruct i as [|i]; simpl in *.
  - injection Hi as ->. by rewrite drop_0.
  - destruct (IH i Hi) as (? & ? & ?). split; [|done].
    unfold Buffer.length in *. lia.
Qed.

(** Two recorded offsets, the earlier one first: the later one is at or
    after the end of the earlier occurrence. *)
Lemma greedy_apart buffer pattern from positions i j p q :
  greedy buffer pattern from positions → (i < j)%nat →
  positions !! i = Some p → positions !! j = Some q →
  p + Buffer.length pattern ≤ q.
Proof.
  intros Hg Hij Hi Hj.
  destruct (greedy_lookup _ _ _ _ _ _ Hg Hi) as (_ & _ & Hrest).
  assert (drop (S i) positions !! (j - S i)%nat = Some q) as Hq.
  { rewrite lookup_drop. by replace (S i + (j - S i))%nat with j by lia. }
  by destruct (greedy_lookup _ _ _ _ _ _ Hrest Hq) as (? & _).
Qed.

Lemma greedy_length buffer pattern from positions :
  pattern ≠ [] → 0 ≤ from → greedy buffer pattern from positions →
  Z.of_nat (length positions) ≤ Z.max 0 (Buffer.length buffer - from).
Proof.
  intros Hne%length_pos Hfrom Hg.
  induction Hg as [|from p ps Hle Hm _ _ IH]; simpl; [lia|].
  apply matchesAt_bound in Hm. lia.
Qed.

End Scan.

(** ** [copy] and the second pass *)

Section Apply.
Implicit Types buffer source target out : Buffer.t.
Implicit Types ws : list (Z * Buffer.t).

Lemma copy_length source target targetStart :
  length (Buffer.copy source target targetStart) = length target.
Proof.
  unfold Buffer.copy. rewrite !length_app, !length_take, length_drop. lia.
Qed.

Lemma copy_fits source target targetStart :
  0 ≤ targetStart → targetStart + Buffer.length source ≤ Buffer.length target →
  Buffer.copy source target targetStart =
  take (Z.to_nat targetStart) target ++ source
    ++ drop (Z.to_nat targetStart + length source) target.
Proof.
  unfold Buffer.length, Buffer.copy. intros H0 Hfit.
  rewrite (take_ge source) by lia. done.
Qed.

Lemma copy_lookup_in source target targetStart (i : nat) :
  0 ≤ targetStart → targetStart + Buffer.length source ≤ Buffer.length target →
  targetStart ≤ Z.of_nat i < targetStart + Buffer.length source →
  Buffer.copy source target targetStart !! i = source !! (i - Z.to_nat targetStart)%nat.
Proof.
  intros H0 Hfit Hi. rewrite copy_fits by done. unfold Buffer.length in *.
  rewrite lookup_app_r by (rewrite length_take; lia).
  rewrite length_take. rewrite lookup_app_l by lia. f_equal. lia.
Qed.

Lemma copy_lookup_out source target targetStart (i : nat) :
  0 ≤ targetStart → targetStart + Buffer.length source ≤ Buffer.length target →
  ¬ (targetStart ≤ Z.of_nat i < targetStart + Buffer.length source) →
  Buffer.copy source target targetStart !! i = target !! i.
Proof.
  intros H0 Hfit Hi. rewrite copy_fits by done. unfold Buffer.length in *.
  destruct (decide (i < Z.to_nat targetStart)%nat) as [Hlt|Hge].
  - rewrite lookup_app_l by (rewrite length_take; lia). by rewrite lookup_take_lt.
  - rewrite lookup_app_r by (rewrite length_take; lia).
    rewrite length_take, lookup_app_r by lia.
    rewrite lookup_drop. f_equal. lia.
Qed.

Lemma applyWrites_length ws buffer : length (applyWrites ws buffer) = length buffer.
Proof.
  revert buffer. induction ws as [|w ws IH]; intros buffer; [done|].
  unfold applyWrites in *. simpl. by rewrite IH, copy_length.
Qed.

(** Writes that fit in the buffer and do not overlap: a byte inside one of
    them is that write's byte, a byte outside all of them is unchanged. *)
Lemma applyWrites_lookup ws buffer (i : nat) :
  Forall (fits buffer) ws → pairwise disjoint ws →
  (∀ w, w ∈ ws → w.1 ≤ Z.of_nat i < w.1 + Buffer.length w.2 →
        applyWrites ws buffer !! i = w.2 !! (i - Z.to_nat w.1)%nat)
  ∧ ((∀ w, w ∈ ws → ¬ (w.1 ≤ Z.of_nat i < w.1 + Buffer.length w.2)) →
     applyWrites ws buffer !! i = buffer !! i).
Proof.
  revert buffer. induction ws as [|w ws IH]; intros buffer Hfits Hpw.
  { split; [by intros w ?%elem_of_nil | done]. }
  apply Forall_cons in Hfits as [[H0 Hfit] Hfits]. destruct Hpw as [Hw Hpw].
  assert (Forall (fits (Buffer.copy w.2 buffer w.1)) ws) as Hfits'.
  { eapply Forall_impl; [exact Hfits|]. unfold fits, Buffer.length.
    intros ?. by rewrite copy_length. }
  destruct (IH (Buffer.copy w.2 buffer w.1) Hfits' Hpw) as [IHin IHout].
  change (applyWrites (w :: ws) buffer)
    with (applyWrites ws (Buffer.copy w.2 buffer w.1)).
  split.
  - intros w' [->|Hin]%elem_of_cons Hi; [|by apply IHin].
    rewrite IHout; [by apply copy_lookup_in|].
    intros w' Hin. rewrite Forall_forall in Hw.
    specialize (Hw w' Hin). unfold disjoint in Hw. lia.
  - intros Hout. rewrite IHout.
    + apply copy_lookup_out; [done..|]. apply Hout. by left.
    + intros w' Hin. apply Hout. by right.
Qed.

Lemma pairwise_app {A} (R : A → A → Prop) (l1 l2 : list A) :
  pairwise R l1 → pairwise R l2 →
  (∀ x y, x ∈ l1 → y ∈ l2 → R x y) →
  pairwise R (l1 ++ l2).
Proof.
  intros H1 H2 H12. induction l1 as [|x l1 IH]; [done|].
  destruct H1 as [Hx H1]. simpl. split.
  - apply Forall_app. split; [done|].
    apply Forall_forall. intros y Hy. apply H12; [by left | done].
  - apply IH; [done|]. intros x' y Hx' Hy. apply H12; [by right | done].
Qed.

(** A run of bytes read off position by position. *)
Lemma matchesAt_lookup out value pos :
  0 ≤ pos → pos + Buffer.length value ≤ Buffer.length out →
  (∀ i : nat, pos ≤ Z.of_nat i < pos + Buffer.length value →
     out !! i = value !! (i - Z.to_nat pos)%nat) →
  matchesAt out value pos.
Proof.
  unfold Buffer.length. intros H0 Hfit Hbytes. split; [unfold Buffer.length; lia|].
  apply list_eq. intros k.
  destruct (decide (k < length value)%nat) as [Hk|Hk].
  - rewrite lookup_take_lt, lookup_drop by done.
    rewrite Hbytes by lia. f_equal. lia.
  - rewrite lookup_take_ge by lia. symmetry. apply lookup_ge_None. lia.
Qed.

End Apply.

(** ** The first pass and what the second pass makes of its results *)

Section Passes.
Implicit Types buffer out : Buffer.t.
Implicit Types patch : Patch.t.
Implicit Types result : PatchResult.t.

(** The three shapes of a result. *)
Lemma checkPatch_cases buffer patch result :
  checkPatch buffer patch = Some result →
  (∃ positions, positions ≠ [] ∧
     findAllPositions buffer (Patch.pattern patch) = Some positions ∧
     result = PatchResult.Make (Patch.name patch) (Z.of_nat (length positions))
                (Some positions) true None)
  ∨ (findAllPositions buffer (Patch.pattern patch) = Some [] ∧
     ((∃ replacementPositions, replacementPositions ≠ [] ∧
         findAllPositions buffer (Patch.replacement patch) = Some replacementPositions ∧
         result = PatchResult.Make (Patch.name patch) 0 None true (Some true))
      ∨ (findAllPositions buffer (Patch.replacement patch) = Some [] ∧
         result = PatchResult.Make (Patch.name patch) 0 None false
                    (Some (Buffer.includes buffer (Patch.replacement patch)))))).
Proof.
  unfold checkPatch. intros H.
  destruct (findAllPositions buffer (Patch.pattern patch)) as [[|p ps]|] eqn:Hp;
    simpl in H; [|injection H as <-; left; by exists (p :: ps)|done].
  right. split; [done|].
  destruct (findAllPositions buffer (Patch.replacement patch)) as [[|q qs]|] eqn:Hq;
    simpl in H; [| |done].
  - right. by injection H as <-.
  - left. exists (q :: qs). by injection H as <-.
Qed.

Lemma checkPatch_name buffer patch result :
  checkPatch buffer patch = Some result → PatchResult.name result = Patch.name patch.
Proof.
  intros [(? & _ & _ & ->) | [_ [(? & _ & _ & ->) | [_ ->]]]]%checkPatch_cases; done.
Qed.

(** The recorded offsets are the occurrences; a result without the field is
    one for a pattern that does not occur. *)
Lemma checkPatch_positions buffer patch result :
  checkPatch buffer patch = Some result →
  default [] (PatchResult.positions result) = occurrences buffer patch
  ∧ PatchResult.found result = Z.of_nat (length (occurrences buffer patch)).
Proof.
  unfold occurrences.
  intros [(? & _ & -> & ->) | [-> [(? & _ & _ & ->) | [_ ->]]]]%checkPatch_cases; done.
Qed.

Lemma checkPatches_Forall2 buffer patches acc results :
  checkPatches buffer patches acc = Some results →
  ∃ news, results = acc ++ news
          ∧ Forall2 (λ patch result, checkPatch buffer patch = Some result) patches news.
Proof.
  revert acc. induction patches as [|patch patches IH]; intros acc H; simpl in H.
  - injection H as <-. exists []. by rewrite app_nil_r.
  - destruct (checkPatch buffer patch) as [result|] eqn:Hc; [simpl in H|done].
    destruct (IH _ H) as (news & -> & HF).
    exists (result :: news). rewrite <- app_assoc. split; [done|]. by constructor.
Qed.

Lemma checkPatches_Some buffer patches acc :
  Forall (λ patch, is_Some (checkPatch buffer patch)) patches →
  is_Some (checkPatches buffer patches acc).
Proof.
  intros H. revert acc. induction H as [|patch patches [result Hr] _ IH]; intros acc; simpl.
  - by eexists.
  - rewrite Hr. simpl. apply IH.
Qed.

(** Non-empty patterns and replacements: every scan of the first pass
    ends. *)
Lemma checkPatch_total buffer patch :
  Patch.pattern patch ≠ [] → Patch.replacement patch ≠ [] →
  is_Some (checkPatch buffer patch).
Proof.
  intros Hp Hr. unfold checkPatch.
  destruct (findAllPositions_greedy buffer _ Hp) as (ps & -> & _).
  destruct (findAllPositions_greedy buffer _ Hr) as (qs & -> & _).
  simpl. repeat case_match; by eexists.
Qed.

(** With names that identify the patches, the second pass looks up, for
    each patch, the result of that patch. *)
Lemma find_result buffer patches results patch :
  Forall2 (λ patch result, checkPatch buffer patch = Some result) patches results →
  NoDup (map Patch.name patches) → patch ∈ patches →
  ∃ result,
    List.find (λ r, String.eqb (PatchResult.name r) (Patch.name patch)) results = Some result
    ∧ checkPatch buffer patch = Some result.
Proof.
  induction 1 as [|p r ps rs Hr _ IH]; intros Hnd Hin; [by apply elem_of_nil in Hin|].
  simpl in Hnd. apply NoDup_cons in Hnd as [Hp Hnd]. simpl.
  rewrite (checkPatch_name _ _ _ Hr).
  apply elem_of_cons in Hin as [->|Hin].
  - rewrite String.eqb_refl. by exists r.
  - destruct (String.eqb_spec (Patch.name p) (Patch.name patch)) as [E|_]; [|by apply IH].
    destruct Hp. rewrite E. by apply list_elem_of_fmap_2.
Qed.

Lemma applyPositions_writes replacement positions out n :
  applyPositions replacement positions (out, n) =
  (applyWrites (map (λ pos, (pos, replacement)) positions) out,
   n + Z.of_nat (length positions)).
Proof.
  revert out n. induction positions as [|pos positions IH]; intros out n.
  - simpl. f_equal. lia.
  - unfold applyPositions, applyWrites in *. simpl. rewrite IH. f_equal. lia.
Qed.

Lemma applyWrites_app ws1 ws2 out :
  applyWrites (ws1 ++ ws2) out = applyWrites ws2 (applyWrites ws1 out).
Proof. apply fold_left_app. Qed.

Lemma applyPatches_writes buffer patches results :
  checkPatches buffer patches [] = Some results →
  NoDup (map Patch.name patches) →
  applyPatches patches results buffer =
  (applyWrites (writes buffer patches) buffer, Z.of_nat (length (writes buffer patches))).
Proof.
  intros (news & -> & HF)%checkPatches_Forall2 Hnd. simpl in *.
  unfold applyPatches.
  assert (∀ ps out n, ps ⊆ patches →
    fold_left (applyPatch news) ps (out, n) =
    (applyWrites (writes buffer ps) out, n + Z.of_nat (length (writes buffer ps)))) as Hgen.
  { induction ps as [|p ps IH]; intros out n Hsub; simpl.
    - f_equal. lia.
    - destruct (find_result buffer patches news p HF Hnd) as (r & Hfind & Hr);
        [apply Hsub; by left|].
      unfold applyPatch at 2. rewrite Hfind.
      destruct (checkPatch_positions _ _ _ Hr) as [Hpos _].
      assert (applyPositions (Patch.replacement p) (occurrences buffer p) (out, n)
              = match PatchResult.positions r with
                | Some positions => applyPositions (Patch.replacement p) positions (out, n)
                | None => (out, n)
                end) as <-.
      { rewrite <- Hpos. by destruct (PatchResult.positions r). }
      rewrite applyPositions_writes, IH by (intros x Hx; apply Hsub; by right).
      unfold writes. simpl. rewrite applyWrites_app, length_app, !length_map.
      f_equal. lia. }
  rewrite Hgen by done. f_equal.
Qed.

End Passes.

(** ** The patched buffer *)

Section Patched.
Implicit Types buffer out : Buffer.t.
Implicit Types patch : Patch.t.

Lemma occurrences_greedy buffer patch :
  occurrences buffer patch ≠ [] →
  greedy buffer (Patch.pattern patch) 0 (occurrences buffer patch).
Proof.
  unfold occurrences.
  destruct (findAllPositions buffer (Patch.pattern patch)) eqn:H; [|done].
  intros _. by apply findAllPositions_Some_greedy.
Qed.

Lemma occurrences_matchesAt buffer patch pos :
  pos ∈ occurrences buffer patch → matchesAt buffer (Patch.pattern patch) pos.
Proof.
  intros Hin.
  assert (occurrences buffer patch ≠ []) as Hne by (by intros E; rewrite E in Hin; apply elem_of_nil in Hin).
  pose proof (greedy_Forall _ _ _ _ (occurrences_greedy _ _ Hne)) as HF.
  rewrite Forall_forall in HF. by destruct (HF pos Hin).
Qed.

Lemma elem_of_writes buffer patches w :
  w ∈ writes buffer patches ↔
  ∃ patch pos, w = (pos, Patch.replacement patch) ∧ recorded buffer patches patch pos.
Proof.
  unfold writes, recorded. rewrite list_elem_of_In, in_flat_map. split.
  - intros (patch & Hin%list_elem_of_In & Hw%list_elem_of_In).
    apply list_elem_of_fmap in Hw as (pos & -> & Hpos). by exists patch, pos.
  - intros (patch & pos & -> & Hin & Hpos). exists patch.
    rewrite <- !list_elem_of_In. split; [done|].
    apply list_elem_of_fmap. by exists pos.
Qed.

Lemma writes_fit buffer patches :
  Forall sameLength patches → Forall (fits buffer) (writes buffer patches).
Proof.
  intros Hsame. apply Forall_forall. intros w (patch & pos & -> & Hin & Hpos)%elem_of_writes.
  rewrite Forall_forall in Hsame. specialize (Hsame patch Hin).
  apply occurrences_matchesAt, matchesAt_bound in Hpos.
  unfold fits, sameLength, Buffer.length in *. simpl. lia.
Qed.

(** The occurrences of one patch are apart from each other by the way they
    are found. *)
Lemma greedy_pairwise buffer patch from positions :
  sameLength patch →
  greedy buffer (Patch.pattern patch) from positions →
  pairwise disjoint (map (λ pos, (pos, Patch.replacement patch)) positions).
Proof.
  intros Hsame Hg.
  induction Hg as [|from p ps Hle Hm _ Hrest IH]; simpl; [done|].
  split; [|done].
  apply Forall_forall. intros w (q & -> & Hq)%list_elem_of_fmap.
  pose proof (greedy_Forall _ _ _ _ Hrest) as HF. rewrite Forall_forall in HF.
  destruct (HF q Hq) as [Hpq _].
  unfold disjoint, sameLength, Buffer.length in *. simpl. lia.
Qed.

Lemma writes_pairwise buffer patches :
  NoDup (map Patch.name patches) → Forall sameLength patches → apart buffer patches →
  pairwise disjoint (writes buffer patches).
Proof.
  intros Hnd Hsame Hapart.
  assert (∀ ps, ps ⊆ patches → NoDup (map Patch.name ps) →
            pairwise disjoint (writes buffer ps)) as Hgen.
  { induction ps as [|p ps IH]; intros Hsub Hndp; [done|].
    simpl in Hndp. apply NoDup_cons in Hndp as [Hp Hndp].
    assert (p ∈ patches) as Hpin by (apply Hsub; by left).
    assert (ps ⊆ patches) as Hsub' by (intros x Hx; apply Hsub; by right).
    assert (sameLength p) as Hsp by (by rewrite Forall_forall in Hsame; apply Hsame).
    unfold writes. simpl. apply pairwise_app.
    - destruct (decide (occurrences buffer p = [])) as [->|Hne]; [done|].
      eapply greedy_pairwise; [done|]. by apply occurrences_greedy.
    - by apply IH.
    - intros w1 w2 (pos1 & -> & Hpos1)%list_elem_of_fmap
        (patch2 & pos2 & -> & Hin2 & Hpos2)%elem_of_writes.
      assert (p ≠ patch2) as Hdiff.
      { intros ->. apply Hp. by apply list_elem_of_fmap_2. }
      assert (sameLength patch2) as Hs2
        by (rewrite Forall_forall in Hsame; apply Hsame; by apply Hsub').
      destruct (Hapart p pos1 patch2 pos2) as [H|H]; [done| |done| |].
      + split; [by apply Hsub'|done].
      + left. unfold sameLength, Buffer.length in *. simpl. lia.
      + right. unfold sameLength, Buffer.length in *. simpl. lia. }
  by apply Hgen.
Qed.

Lemma writes_patched buffer patches :
  NoDup (map Patch.name patches) → Forall sameLength patches → apart buffer patches →
  patched buffer patches (applyWrites (writes buffer patches) buffer).
Proof.
  intros Hnd Hsame Hapart.
  pose proof (writes_fit buffer patches Hsame) as Hfit.
  pose proof (writes_pairwise buffer patches Hnd Hsame Hapart) as Hpw.
  split; [apply applyWrites_length|]. split.
  - intros patch pos Hrec.
    assert ((pos, Patch.replacement patch) ∈ writes buffer patches) as Hw
      by (apply elem_of_writes; by exists patch, pos).
    rewrite Forall_forall in Hfit. destruct (Hfit _ Hw) as [H0 Hb]. simpl in *.
    apply matchesAt_lookup; [done| |].
    + unfold Buffer.length in *. by rewrite applyWrites_length.
    + intros i Hi.
      destruct (applyWrites_lookup (writes buffer patches) buffer i) as [Hin _];
        [by apply Forall_forall | done |].
      by apply (Hin _ Hw).
  - intros i Hout.
    destruct (applyWrites_lookup (writes buffer patches) buffer i) as [_ Hsame'];
      [done | done |].
    apply Hsame'. intros w (patch & pos & -> & Hrec)%elem_of_writes. by apply Hout.
Qed.

(** Whatever the patches, the second pass keeps the length of the buffer. *)
Lemma applyPatches_length patches results buffer :
  length (applyPatches patches results buffer).1 = length buffer.
Proof.
  unfold applyPatches.
  assert (∀ st, length (fold_left (applyPatch results) patches st).1 = length st.1) as H.
  { induction patches as [|p ps IH]; intros st; [done|]. simpl. rewrite IH.
    unfold applyPatch. repeat case_match; try done.
    destruct st as [b n]. rewrite applyPositions_writes. simpl. apply applyWrites_length. }
  apply H.
Qed.

End Patched.

(** ** The run, step by step *)

Section Run.
Implicit Types options : Options.t.
Implicit Types w : world.

Lemma patchDroid_missing options w :
  files w !! Options.inputPath options = None →
  patchDroid options w = Threw (BinaryNotFound (Options.inputPath options)) w.
Proof.
  intros H. unfold patchDroid, bind, existsSync. simpl.
  rewrite bool_decide_eq_false_2; [done|]. rewrite H. by intros [? ?].
Qed.

(** The steps up to the content of a file that is there. *)
Ltac read_input H :=
  unfold patchDroid, bind, existsSync, stat, readFile, run; simpl;
  rewrite bool_decide_eq_true_2 by (rewrite H; by eexists); simpl;
  rewrite H; simpl; rewrite ?H; simpl.

Lemma patchDroid_directory options w :
  files w !! Options.inputPath options = Some Directory →
  patchDroid options w = Threw (EISDIR (Options.inputPath options)) w.
Proof.
  intros H. by read_input H.
Qed.

Lemma patchDroid_unreadable options w data mode :
  files w !! Options.inputPath options = Some (File data mode) →
  readable mode = false →
  patchDroid options w = Threw (EACCES (Options.inputPath options)) w.
Proof.
  intros H Hr. read_input H. by rewrite Hr.
Qed.

(** From here on the input is a file that the engine can read. *)
Context (options : Options.t) (w : world) (buffer : Buffer.t) (mode : Z).
Context (Hinput : files w !! Options.inputPath options = Some (File buffer mode)).
Context (Hreadable : readable mode = true).

Lemma patchDroid_scan_throws :
  checkPatches buffer (Options.patches options) [] = None →
  patchDroid options w = Threw RangeError w.
Proof.
  intros Hc. read_input Hinput. by rewrite Hreadable, Hc.
Qed.

Lemma patchDroid_dryRun results :
  checkPatches buffer (Options.patches options) [] = Some results →
  default false (Options.dryRun options) = true →
  patchDroid options w =
  Returned
    (RunResult.Make
       (forallb (λ r, PatchResult.success r || truthy (PatchResult.alreadyPatched r)) results)
       (Some true) None results None None) w.
Proof.
  intros Hc Hd. read_input Hinput. by rewrite Hreadable, Hc, Hd.
Qed.

Lemma patchDroid_nothing results :
  checkPatches buffer (Options.patches options) [] = Some results →
  default false (Options.dryRun options) = false →
  List.filter needed results = [] →
  patchDroid options w =
  Returned
    (if forallb (λ r, truthy (PatchResult.alreadyPatched r)) results
     then RunResult.Make true None (Some (Options.inputPath options)) results (Some true) None
     else RunResult.Make false None None results None None) w.
Proof.
  intros Hc Hd Hf. read_input Hinput.
  rewrite Hreadable, Hc, Hd, Hf. simpl. by case_match.
Qed.

Lemma bind_returned {A B} (m : M A) (k : A → M B) w0 a w' :
  m w0 = Returned a w' → bind m k w0 = k a w'.
Proof. unfold bind. by intros ->. Qed.

(** The backup step cannot fail: it copies a file that has just been read
    to a path where there is nothing. *)
Lemma backup_step :
  (if default true (Options.backup options) then
     let* backup_exists := existsSync (backupPath options) in
     if negb backup_exists
     then copyFile (Options.inputPath options) (backupPath options)
     else ret tt
   else ret tt) w
  = Returned tt (afterBackup options buffer mode w).
Proof.
  unfold afterBackup, bind, existsSync, copyFile, store, ret.
  destruct (default true (Options.backup options)); [|done]. simpl.
  destruct (files w !! backupPath options) as [n|] eqn:Eb.
  - by rewrite bool_decide_eq_true_2 by done.
  - rewrite bool_decide_eq_false_2 by (by intros [? ?]). simpl.
    by rewrite Hinput, Hreadable, Eb.
Qed.

(** Writing, [chmod], reading back and verifying. *)
Lemma write_steps path out patches results total w1 :
  (let* _ := writeFile path out in
   let* _ := chmod path 493 in
   let* verifyBuffer := readFile path in
   let* allVerified := run (verifyPatches verifyBuffer patches true) in
   ret (RunResult.Make allVerified None (Some path) results None (Some total))) w1
  = match store path out created_mode w1 with
    | inr e => Threw e w1
    | inl fs =>
        match verifyPatches out patches true with
        | None => Threw RangeError (afterWrite path out fs w1)
        | Some allVerified =>
            Returned (RunResult.Make allVerified None (Some path) results None (Some total))
                     (afterWrite path out fs w1)
        end
    end.
Proof.
  unfold bind, writeFile, chmod, readFile, run, ret, store, afterWrite.
  destruct (files w1 !! path) as [[d m|]|] eqn:E1; simpl; [|done|].
  - destruct (writable m); [|done]. simpl.
    rewrite lookup_insert_eq. simpl. rewrite lookup_insert_eq.
    change (readable 493) with true. simpl.
    by destruct (verifyPatches out patches true).
  - rewrite lookup_insert_eq. simpl. rewrite lookup_insert_eq.
    change (readable 493) with true. simpl.
    by destruct (verifyPatches out patches true).
Qed.

Lemma patchDroid_live results :
  checkPatches buffer (Options.patches options) [] = Some results →
  default false (Options.dryRun options) = false →
  List.filter needed results ≠ [] →
  let w1 := afterBackup options buffer mode w in
  let out := (applyPatches (Options.patches options) results buffer).1 in
  let total := (applyPatches (Options.patches options) results buffer).2 in
  patchDroid options w =
  match store (finalOutputPath options) out created_mode w1 with
  | inr e => Threw e w1
  | inl fs =>
      match verifyPatches out (Options.patches options) true with
      | None => Threw RangeError (afterWrite (finalOutputPath options) out fs w1)
      | Some allVerified =>
          Returned (RunResult.Make allVerified None (Some (finalOutputPath options))
                      results None (Some total))
                   (afterWrite (finalOutputPath options) out fs w1)
      end
  end.
Proof.
  intros Hc Hd Hf w1 out total. unfold patchDroid.
  erewrite bind_returned
    by (unfold existsSync; rewrite bool_decide_eq_true_2 by (rewrite Hinput; by eexists); done).
  cbn [negb].
  erewrite bind_returned by (unfold stat; by rewrite Hinput).
  erewrite bind_returned by (unfold readFile; by rewrite Hinput, Hreadable).
  erewrite bind_returned by (unfold run; by rewrite Hc).
  rewrite Hd.
  destruct (List.filter needed results) as [|r rs] eqn:E; [done|].
  change (Z.of_nat (length (r :: rs)) =? 0) with false. cbv iota.
  erewrite bind_returned by apply backup_step.
  subst out total.
  destruct (applyPatches (Options.patches options) results buffer) as [out total].
  apply write_steps.
Qed.

End Run.

(** A patch with an empty pattern: the first scan never reaches its
    [break] and ends in the [RangeError]. *)
Example patchDroid_empty_pattern :
  patchDroid (live "droid" [Patch.Make "empty" "" [] []]) droid_world
  = Threw RangeError droid_world.
Proof.
  by apply (patchDroid_scan_throws (live "droid" [Patch.Make "empty" "" [] []]) droid_world
              (Buffer.from "xxisCustom:!0yyisCustom:!0zz") 493).
Qed.

(** ** What a run that has written says about itself *)

Section Written.
Implicit Types options : Options.t.
Implicit Types fs : gmap string node.

Lemma afterBackup_trace options buffer mode w :
  trace (afterBackup options buffer mode w) = trace w
  ∨ (files w !! backupPath options = None
     ∧ default true (Options.backup options) = true
     ∧ afterBackup options buffer mode w =
       World (<[backupPath options := File buffer mode]> (files w))
             (trace w ++ [EvCopyFile (Options.inputPath options) (backupPath options)])).
Proof.
  unfold afterBackup. destruct (default true (Options.backup options)); [|by left].
  destruct (files w !! backupPath options) eqn:E.
  - rewrite bool_decide_eq_true_2 by done. by left.
  - rewrite bool_decide_eq_false_2 by (by intros [? ?]). by right.
Qed.

(** A run writes once, in live mode, when some pattern was found: the bytes
    are those the second pass has made, the path is the output path, and
    after [chmod] the file is read back and verified. *)
Lemma patchDroid_written options fs path data :
  EvWriteFile path data ∈ trace (world_of (patchDroid options (World fs []))) →
  ∃ buffer mode results fs',
    fs !! Options.inputPath options = Some (File buffer mode)
    ∧ readable mode = true
    ∧ checkPatches buffer (Options.patches options) [] = Some results
    ∧ default false (Options.dryRun options) = false
    ∧ List.filter needed results ≠ []
    ∧ path = finalOutputPath options
    ∧ data = (applyPatches (Options.patches options) results buffer).1
    ∧ store path data created_mode (afterBackup options buffer mode (World fs [])) = inl fs'
    ∧ patchDroid options (World fs []) =
      match verifyPatches data (Options.patches options) true with
      | None =>
          Threw RangeError
            (afterWrite path data fs' (afterBackup options buffer mode (World fs [])))
      | Some allVerified =>
          Returned
            (RunResult.Make allVerified None (Some path) results None
               (Some (applyPatches (Options.patches options) results buffer).2))
            (afterWrite path data fs' (afterBackup options buffer mode (World fs [])))
      end.
Proof.
  set (w := World fs []). intros Hev.
  destruct (fs !! Options.inputPath options) as [[buffer mode|]|] eqn:Hin.
  - destruct (readable mode) eqn:Hr.
    + destruct (checkPatches buffer (Options.patches options) []) as [results|] eqn:Hc.
      * destruct (default false (Options.dryRun options)) eqn:Hd.
        { rewrite (patchDroid_dryRun options w buffer mode Hin Hr results Hc Hd) in Hev.
          by apply elem_of_nil in Hev. }
        destruct (List.filter needed results) as [|r rs] eqn:Hf.
        { rewrite (patchDroid_nothing options w buffer mode Hin Hr results Hc Hd Hf) in Hev.
          by apply elem_of_nil in Hev. }
        assert (List.filter needed results ≠ []) as Hne by (by rewrite Hf).
        pose proof (patchDroid_live options w buffer mode Hin Hr results Hc Hd Hne) as Hlive.
        simpl in Hlive. rewrite Hlive in Hev.
        destruct (store _ _ _ _) as [fs'|e] eqn:Hs.
        -- assert (EvWriteFile path data ∈
                     trace (afterWrite (finalOutputPath options)
                              (applyPatches (Options.patches options) results buffer).1 fs'
                              (afterBackup options buffer mode w))) as Hev'
             by (by destruct (verifyPatches _ _ _)).
           clear Hev. unfold afterWrite in Hev'. simpl in Hev'.
           assert (path = finalOutputPath options
                   ∧ data = (applyPatches (Options.patches options) results buffer).1)
             as [-> ->].
           { apply elem_of_app in Hev' as [Hev'|Hev'].
             - apply elem_of_app in Hev' as [Hev'|Hev'].
               + destruct (afterBackup_trace options buffer mode w) as [E|(_ & _ & E)];
                   rewrite E in Hev'; simpl in Hev'.
                 * by apply elem_of_nil in Hev'.
                 * apply list_elem_of_singleton in Hev'. done.
               + apply list_elem_of_singleton in Hev'. by injection Hev' as -> ->.
             - apply list_elem_of_singleton in Hev'. done. }
           exists buffer, mode, results, fs'. by repeat split.
        -- simpl in Hev.
           destruct (afterBackup_trace options buffer mode w) as [E|(_ & _ & E)];
             rewrite E in Hev; simpl in Hev.
           ++ by apply elem_of_nil in Hev.
           ++ apply list_elem_of_singleton in Hev. done.
      * rewrite (patchDroid_scan_throws options w buffer mode Hin Hr Hc) in Hev.
        by apply elem_of_nil in Hev.
    + rewrite (patchDroid_unreadable options w buffer mode Hin Hr) in Hev.
      by apply elem_of_nil in Hev.
  - rewrite (patchDroid_directory options w Hin) in Hev. by apply elem_of_nil in Hev.
  - rewrite (patchDroid_missing options w Hin) in Hev. by apply elem_of_nil in Hev.
Qed.

Lemma afterWrite_lookup path out fs w :
  files (afterWrite path out fs w) !! path = Some (File out 493).
Proof. unfold afterWrite. simpl. apply lookup_insert_eq. Qed.

(** The flag of the verification loop. *)
Lemma verifyPatches_true verifyBuffer patches allVerified b :
  verifyPatches verifyBuffer patches allVerified = Some b →
  (b = true ↔
   allVerified = true
   ∧ Forall (λ patch, findAllPositions verifyBuffer (Patch.pattern patch) = Some []) patches).
Proof.
  revert allVerified. induction patches as [|patch patches IH]; intros allVerified H; simpl in H.
  - injection H as ->. split; [done | by intros [? _]].
  - destruct (findAllPositions verifyBuffer (Patch.pattern patch)) as [old|] eqn:Ho; [|done].
    destruct (findAllPositions verifyBuffer (Patch.replacement patch)) as [new|]; [|done].
    simpl in H. apply IH in H. rewrite H, Forall_cons, Ho. clear H IH.
    destruct old as [|o old]; simpl.
    + split; [by intros [? ?] | by intros (? & _ & ?)].
    + split; [by intros [? _] | by intros (_ & ? & _)].
Qed.

Lemma verifyPatches_total verifyBuffer patches allVerified :
  Forall (λ patch, Patch.pattern patch ≠ [] ∧ Patch.replacement patch ≠ []) patches →
  is_Some (verifyPatches verifyBuffer patches allVerified).
Proof.
  intros H. revert allVerified.
  induction H as [|patch patches [Hp Hr] _ IH]; intros allVerified; simpl; [by eexists|].
  destruct (findAllPositions_greedy verifyBuffer _ Hp) as (? & -> & _).
  destruct (findAllPositions_greedy verifyBuffer _ Hr) as (? & -> & _).
  simpl. apply IH.
Qed.

(** No occurrence at all, in the words of the scan. *)
Lemma findAllPositions_nil buffer pattern :
  findAllPositions buffer pattern = Some [] ↔
  pattern ≠ [] ∧ ∀ q, ¬ matchesAt buffer pattern q.
Proof.
  split.
  - intros H. split; [by eapply findAllPositions_nonempty|].
    apply findAllPositions_Some_greedy in H. inversion H as [? Hnone|]; subst.
    intros q Hq. apply (Hnone q); [|done]. by destruct Hq as [[? _] _].
  - intros [Hne Hnone].
    destruct (findAllPositions_greedy buffer pattern Hne) as ([|p ps] & Hf & Hg); [done|].
    inversion Hg; subst. by destruct (Hnone p).
Qed.

End Written.

(** * The properties of the specification *)

(** ** Scanning *)

(** C4: for every buffer and every non-empty pattern, [findAllPositions]
    returns exactly the occurrences of the pattern found from the left
    without overlap: the first is the leftmost occurrence in the buffer and
    each next one is the leftmost occurrence at or after the end of the one
    before ([greedy]); every returned offset is the start of a byte-for-byte
    match; the offsets increase strictly, and two of them differ by at least
    the length of the pattern. *)
Theorem findAllPositions_nonoverlapping (buffer pattern : Buffer.t) :
  pattern ≠ [] →
  ∃ positions,
    findAllPositions buffer pattern = Some positions
    ∧ greedy buffer pattern 0 positions
    ∧ Forall (matchesAt buffer pattern) positions
    ∧ (∀ (i j : nat) p q,
         (i < j)%nat → positions !! i = Some p → positions !! j = Some q →
         p < q ∧ p + Buffer.length pattern ≤ q).
Proof.
  intros Hne. destruct (findAllPositions_greedy buffer pattern Hne) as (positions & Hf & Hg).
  exists positions. split; [done|]. split; [done|]. split.
  - eapply Forall_impl; [by apply greedy_Forall in Hg|]. by intros p [_ ?].
  - intros i j p q Hij Hi Hj.
    pose proof (greedy_apart _ _ _ _ _ _ _ _ Hg Hij Hi Hj).
    pose proof (length_pos _ Hne). lia.
Qed.

Lemma findAllPositions_nonoverlapping_witness :
  ∃ positions,
    findAllPositions (Buffer.from "aaaaa") (Buffer.from "aa") = Some positions
    ∧ greedy (Buffer.from "aaaaa") (Buffer.from "aa") 0 positions
    ∧ Forall (matchesAt (Buffer.from "aaaaa") (Buffer.from "aa")) positions
    ∧ (∀ (i j : nat) p q,
         (i < j)%nat → positions !! i = Some p → positions !! j = Some q →
         p < q ∧ p + Buffer.length (Buffer.from "aa") ≤ q).
Proof. apply findAllPositions_nonoverlapping. discriminate. Defined.

(** C10: for every buffer and every non-empty pattern the loop of
    [findAllPositions] ends: every bound on its iterations above the length
    of the buffer gives the same list, which has at most as many offsets as
    the buffer has bytes.  The pattern must be non-empty: with the empty
    pattern the cursor never advances and no bound is enough. *)
Theorem findAllPositions_terminates :
  (∀ buffer pattern : Buffer.t,
     pattern ≠ [] →
     ∃ positions,
       (∀ fuel, (length buffer < fuel)%nat →
          findAllPositions_loop fuel buffer pattern [] 0 = Some positions)
       ∧ findAllPositions buffer pattern = Some positions
       ∧ (length positions ≤ length buffer)%nat)
  ∧ (∀ (buffer : Buffer.t) fuel positions pos,
       findAllPositions_loop fuel buffer [] positions pos = None).
Proof.
  split; [|intros; apply findAllPositions_loop_empty].
  intros buffer pattern Hne.
  destruct (findAllPositions_greedy buffer pattern Hne) as (positions & Hf & Hg).
  exists positions. split; [|split; [done|]].
  - intros fuel Hfuel.
    destruct (findAllPositions_loop_enough fuel buffer pattern [] 0)
      as (found & -> & Hg'); [done | lia | unfold Buffer.length; lia |].
    simpl. f_equal. by eapply greedy_functional.
  - pose proof (greedy_length _ _ _ _ Hne (Z.le_refl 0) Hg).
    unfold Buffer.length in *. lia.
Qed.

Lemma findAllPositions_terminates_witness :
  ∃ positions,
    (∀ fuel, (length (Buffer.from "aaaaa") < fuel)%nat →
       findAllPositions_loop fuel (Buffer.from "aaaaa") (Buffer.from "aa") [] 0
       = Some positions)
    ∧ findAllPositions (Buffer.from "aaaaa") (Buffer.from "aa") = Some positions
    ∧ (length positions ≤ length (Buffer.from "aaaaa"))%nat.
Proof. apply (proj1 findAllPositions_terminates). discriminate. Defined.

(** ** The first pass *)

Lemma includes_false buffer value :
  findAllPositions buffer value = Some [] → Buffer.includes buffer value = false.
Proof.
  intros [Hne Hnone]%findAllPositions_nil. unfold Buffer.includes.
  destruct (Z.eqb_spec (Buffer.indexOf buffer value 0) (-1)) as [|E]; [done|].
  destruct (indexOf_some buffer value 0 (Z.le_refl 0) Hne E) as (_ & Hm & _).
  by destruct (Hnone _ Hm).
Qed.

Lemma needed_found (result : PatchResult.t) :
  PatchResult.found result = 0 → needed result = false.
Proof. unfold needed. by intros ->. Qed.

Lemma filter_needed_nil (results : list PatchResult.t) :
  Forall (λ result, needed result = false) results → List.filter needed results = [].
Proof.
  induction 1 as [|result results Hr _ IH]; [done|]. simpl. by rewrite Hr.
Qed.

(** An empty replacement for a pattern that is not in the buffer:
    [includes] says that the replacement is there, the scan for it never
    reaches its [break], and the engine throws, in a dry run as well. *)
Lemma empty_replacement_throws :
  findAllPositions (Buffer.from "another binary") (Patch.pattern blank) = Some []
  ∧ Buffer.includes (Buffer.from "another binary") (Patch.replacement blank) = true
  ∧ checkPatch (Buffer.from "another binary") blank = None
  ∧ patchDroid (dry "bin" [blank]) blank_world = Threw RangeError blank_world
  ∧ patchDroid (live "bin" [blank]) blank_world = Threw RangeError blank_world.
Proof. vm_compute. repeat split. Qed.

(** C3, amended: a patch with a replacement that is not empty, whose
    pattern has no occurrence in the buffer.  When its replacement has at
    least one occurrence, the result of the patch has
    [alreadyPatched = true] and [success = true]; when the replacement has
    none either, the result has [success = false] and
    [alreadyPatched = false].  Nothing is thrown: the first pass gives a
    result in both cases, and a run over a readable input in which no
    pattern occurs and no replacement is empty returns a result, in the
    world it started in. *)
Theorem pattern_not_found (buffer : Buffer.t) (patch : Patch.t) :
  Patch.replacement patch ≠ [] →
  findAllPositions buffer (Patch.pattern patch) = Some [] →
  is_Some (checkPatch buffer patch)
  ∧ (∀ p ps, findAllPositions buffer (Patch.replacement patch) = Some (p :: ps) →
     ∃ result, checkPatch buffer patch = Some result
               ∧ PatchResult.found result = 0
               ∧ PatchResult.alreadyPatched result = Some true
               ∧ PatchResult.success result = true)
  ∧ (findAllPositions buffer (Patch.replacement patch) = Some [] →
     ∃ result, checkPatch buffer patch = Some result
               ∧ PatchResult.found result = 0
               ∧ PatchResult.success result = false
               ∧ PatchResult.alreadyPatched result = Some false)
  ∧ (∀ options w mode,
       files w !! Options.inputPath options = Some (File buffer mode) →
       readable mode = true →
       Forall (λ patch', findAllPositions buffer (Patch.pattern patch') = Some []
                         ∧ Patch.replacement patch' ≠ [])
              (Options.patches options) →
       (∃ r, patchDroid options w = Returned r w)
       ∧ ∀ e w', patchDroid options w ≠ Threw e w').
Proof.
  intros Hne Hp. split; [|split; [|split]].
  - apply checkPatch_total; [by eapply findAllPositions_nonempty | done].
  - intros p ps Hr. unfold checkPatch. rewrite Hp, Hr. simpl. by eexists.
  - intros Hr. unfold checkPatch. rewrite Hp, Hr. simpl.
    rewrite (includes_false _ _ Hr). by eexists.
  - intros options w mode Hin Hread Hall.
    destruct (checkPatches_Some buffer (Options.patches options) []) as [results Hc].
    { eapply Forall_impl; [exact Hall|]. intros patch' [Hp' Hne'].
      apply checkPatch_total; [by eapply findAllPositions_nonempty | done]. }
    assert (∃ r, patchDroid options w = Returned r w) as [r Hret]; [|by rewrite Hret; eauto].
    destruct (default false (Options.dryRun options)) eqn:Hd.
    + eexists. by apply (patchDroid_dryRun options w buffer mode Hin Hread results Hc Hd).
    + eexists. apply (patchDroid_nothing options w buffer mode Hin Hread results Hc Hd).
      apply filter_needed_nil.
      apply checkPatches_Forall2 in Hc as (news & -> & HF). simpl.
      clear Hp Hne. induction HF as [|patch' r ps rs Hr _ IH]; [done|].
      apply Forall_cons in Hall as [[Hp' _] Hall]. constructor; [|by apply IH].
      apply needed_found. destruct (checkPatch_positions _ _ _ Hr) as [_ ->].
      unfold occurrences. by rewrite Hp'.
Qed.

Lemma pattern_not_found_witness :
  is_Some (checkPatch isCustom_done isCustom)
  ∧ (∀ p ps, findAllPositions isCustom_done (Patch.replacement isCustom) = Some (p :: ps) →
     ∃ result, checkPatch isCustom_done isCustom = Some result
               ∧ PatchResult.found result = 0
               ∧ PatchResult.alreadyPatched result = Some true
               ∧ PatchResult.success result = true)
  ∧ (findAllPositions isCustom_done (Patch.replacement isCustom) = Some [] →
     ∃ result, checkPatch isCustom_done isCustom = Some result
               ∧ PatchResult.found result = 0
               ∧ PatchResult.success result = false
               ∧ PatchResult.alreadyPatched result = Some false)
  ∧ (∀ options w mode,
       files w !! Options.inputPath options = Some (File isCustom_done mode) →
       readable mode = true →
       Forall (λ patch', findAllPositions isCustom_done (Patch.pattern patch') = Some []
                         ∧ Patch.replacement patch' ≠ [])
              (Options.patches options) →
       (∃ r, patchDroid options w = Returned r w)
       ∧ ∀ e w', patchDroid options w ≠ Threw e w').
Proof.
  apply (pattern_not_found isCustom_done isCustom); [discriminate | reflexivity].
Defined.

(** ** Dry run *)

(** C5: with [dryRun = true] the engine leaves the world as it found it,
    whatever the input and the patches: no file is created, changed or
    removed, no mode is changed, no call that writes is made.  The result
    it returns has [dryRun = true], and its [success] is true exactly when
    every patch's result has [success] or [alreadyPatched]; it does return
    one whenever the input is a readable file and the patterns and
    replacements are not empty. *)
Theorem dryRun_touches_nothing (options : Options.t) (w : world) :
  default false (Options.dryRun options) = true →
  world_of (patchDroid options w) = w
  ∧ (∀ r w', patchDroid options w = Returned r w' →
       RunResult.dryRun r = Some true
       ∧ (RunResult.success r = true ↔
          Forall (λ result, PatchResult.success result = true
                            ∨ PatchResult.alreadyPatched result = Some true)
                 (RunResult.results r)))
  ∧ (∀ buffer mode,
       files w !! Options.inputPath options = Some (File buffer mode) →
       readable mode = true →
       Forall wellFormed (Options.patches options) →
       ∃ r, patchDroid options w = Returned r w
            ∧ Forall2 (λ patch result, checkPatch buffer patch = Some result)
                      (Options.patches options) (RunResult.results r)).
Proof.
  intros Hd.
  split; [|split].
  - destruct (files w !! Options.inputPath options) as [[buffer mode|]|] eqn:Hin.
    + destruct (readable mode) eqn:Hr.
      * destruct (checkPatches buffer (Options.patches options) []) as [results|] eqn:Hc.
        -- by rewrite (patchDroid_dryRun options w buffer mode Hin Hr results Hc Hd).
        -- by rewrite (patchDroid_scan_throws options w buffer mode Hin Hr Hc).
      * by rewrite (patchDroid_unreadable options w buffer mode Hin Hr).
    + by rewrite (patchDroid_directory options w Hin).
    + by rewrite (patchDroid_missing options w Hin).
  - intros r w' Hrun.
    destruct (files w !! Options.inputPath options) as [[buffer mode|]|] eqn:Hin.
    + destruct (readable mode) eqn:Hr.
      * destruct (checkPatches buffer (Options.patches options) []) as [results|] eqn:Hc.
        -- rewrite (patchDroid_dryRun options w buffer mode Hin Hr results Hc Hd) in Hrun. injection Hrun as <- <-. simpl.
           split; [done|]. rewrite forallb_forall, Forall_forall.
           setoid_rewrite <- list_elem_of_In. setoid_rewrite orb_true_iff.
           unfold truthy. split; intros H x Hx; specialize (H x Hx).
           ++ destruct H as [?|H]; [by left|right].
              by destruct (PatchResult.alreadyPatched x) as [[]|].
           ++ destruct H as [?|H]; [by left|right]. by rewrite H.
        -- by rewrite (patchDroid_scan_throws options w buffer mode Hin Hr Hc) in Hrun.
      * by rewrite (patchDroid_unreadable options w buffer mode Hin Hr) in Hrun.
    + by rewrite (patchDroid_directory options w Hin) in Hrun.
    + by rewrite (patchDroid_missing options w Hin) in Hrun.
  - intros buffer mode Hin Hr Hwf.
    destruct (checkPatches_Some buffer (Options.patches options) []) as [results Hc].
    { eapply Forall_impl; [exact Hwf|]. intros patch [? ?]. by apply checkPatch_total. }
    rewrite (patchDroid_dryRun options w buffer mode Hin Hr results Hc Hd). eexists. split; [done|]. simpl.
    by apply checkPatches_Forall2 in Hc as (news & -> & HF).
Qed.

Lemma dryRun_touches_nothing_witness :
  world_of (patchDroid (dry "droid" [isCustom]) droid_world) = droid_world
  ∧ (∀ r w', patchDroid (dry "droid" [isCustom]) droid_world = Returned r w' →
       RunResult.dryRun r = Some true
       ∧ (RunResult.success r = true ↔
          Forall (λ result, PatchResult.success result = true
                            ∨ PatchResult.alreadyPatched result = Some true)
                 (RunResult.results r)))
  ∧ (∀ buffer mode,
       files droid_world !! Options.inputPath (dry "droid" [isCustom])
         = Some (File buffer mode) →
       readable mode = true →
       Forall wellFormed (Options.patches (dry "droid" [isCustom])) →
       ∃ r, patchDroid (dry "droid" [isCustom]) droid_world = Returned r droid_world
            ∧ Forall2 (λ patch result, checkPatch buffer patch = Some result)
                      (Options.patches (dry "droid" [isCustom])) (RunResult.results r)).
Proof. apply (dryRun_touches_nothing (dry "droid" [isCustom]) droid_world). reflexivity. Defined.

(** ** Input errors *)

(** C7: when [inputPath] does not name an existing file that can be read,
    the engine throws and returns no result.  It has made no change by
    then: the world is the one it started in, without output and without
    backup.  And it has not scanned: what it throws depends on the input
    path alone, not on the patches nor on the other options. *)
Theorem unreadable_input_throws (options : Options.t) (w : world) :
  (¬ ∃ data mode, files w !! Options.inputPath options = Some (File data mode)
                  ∧ readable mode = true) →
  ∃ e, patchDroid options w = Threw e w
       ∧ ∀ options', Options.inputPath options' = Options.inputPath options →
                     patchDroid options' w = Threw e w.
Proof.
  intros Hno.
  destruct (files w !! Options.inputPath options) as [[data mode|]|] eqn:Hin.
  - destruct (readable mode) eqn:Hr; [destruct Hno; by exists data, mode|].
    exists (EACCES (Options.inputPath options)).
    split; [by eapply patchDroid_unreadable|].
    intros options' E. rewrite <- E in *. by eapply patchDroid_unreadable.
  - exists (EISDIR (Options.inputPath options)).
    split; [by apply patchDroid_directory|].
    intros options' E. rewrite <- E in *. by apply patchDroid_directory.
  - exists (BinaryNotFound (Options.inputPath options)).
    split; [by apply patchDroid_missing|].
    intros options' E. rewrite <- E in *. by apply patchDroid_missing.
Qed.

Lemma unreadable_input_throws_witness :
  ∃ e, patchDroid (live "missing" [isCustom]) droid_world = Threw e droid_world
       ∧ ∀ options',
           Options.inputPath options' = Options.inputPath (live "missing" [isCustom]) →
           patchDroid options' droid_world = Threw e droid_world.
Proof.
  apply unreadable_input_throws. intros (data & mode & H & _).
  vm_compute in H. discriminate.
Defined.

(** ** Nothing to apply *)

(** C8: live mode, no patch with occurrences still to replace (each result
    is either not found and not already patched, or already patched).  The
    engine returns in the world it started in: no output is written, no
    backup is made.  When every patch is already patched the result has
    [success = true], [noPatchNeeded = true] and [outputPath = inputPath];
    otherwise it has [success = false]. *)
Theorem nothing_to_apply (options : Options.t) (w : world)
    (buffer : Buffer.t) (mode : Z) (results : list PatchResult.t) :
  default false (Options.dryRun options) = false →
  files w !! Options.inputPath options = Some (File buffer mode) →
  readable mode = true →
  checkPatches buffer (Options.patches options) [] = Some results →
  Forall (λ result, (PatchResult.found result = 0
                     ∧ PatchResult.alreadyPatched result = Some false)
                    ∨ PatchResult.alreadyPatched result = Some true) results →
  ∃ r, patchDroid options w = Returned r w
       ∧ RunResult.results r = results
       ∧ (Forall (λ result, PatchResult.alreadyPatched result = Some true) results →
          RunResult.success r = true
          ∧ RunResult.noPatchNeeded r = Some true
          ∧ RunResult.outputPath r = Some (Options.inputPath options))
       ∧ (¬ Forall (λ result, PatchResult.alreadyPatched result = Some true) results →
          RunResult.success r = false
          ∧ RunResult.noPatchNeeded r = None).
Proof.
  intros Hd Hin Hr Hc Hall.
  rewrite (patchDroid_nothing options w buffer mode Hin Hr results Hc Hd).
  2:{ apply filter_needed_nil. eapply Forall_impl; [exact Hall|].
      intros result [[Hf _]|Ha]; [by apply needed_found|].
      unfold needed. rewrite Ha. simpl. apply andb_false_r. }
  eexists. split; [done|].
  destruct (forallb (λ r, truthy (PatchResult.alreadyPatched r)) results) eqn:Hfa; simpl.
  - split; [done|]. split; [done|]. intros Hnot. destruct Hnot.
    rewrite forallb_forall in Hfa. apply Forall_forall. intros x Hx%list_elem_of_In.
    specialize (Hfa x Hx). unfold truthy in Hfa.
    by destruct (PatchResult.alreadyPatched x) as [[]|].
  - split; [done|]. split; [|done]. intros Hyes.
    assert (forallb (λ r, truthy (PatchResult.alreadyPatched r)) results = true) as E; [|congruence].
    apply forallb_forall. intros x Hx%list_elem_of_In.
    rewrite Forall_forall in Hyes. by rewrite (Hyes x Hx).
Qed.

Lemma nothing_to_apply_witness :
  ∃ r, patchDroid (live "droid" [isCustom]) droid_done_world = Returned r droid_done_world
       ∧ RunResult.results r = [PatchResult.Make "isCustom" 0 None true (Some true)]
       ∧ (Forall (λ result, PatchResult.alreadyPatched result = Some true)
                 [PatchResult.Make "isCustom" 0 None true (Some true)] →
          RunResult.success r = true
          ∧ RunResult.noPatchNeeded r = Some true
          ∧ RunResult.outputPath r = Some (Options.inputPath (live "droid" [isCustom])))
       ∧ (¬ Forall (λ result, PatchResult.alreadyPatched result = Some true)
                   [PatchResult.Make "isCustom" 0 None true (Some true)] →
          RunResult.success r = false
          ∧ RunResult.noPatchNeeded r = None).
Proof.
  apply (nothing_to_apply (live "droid" [isCustom]) droid_done_world isCustom_done 493).
  - reflexivity.
  - reflexivity.
  - reflexivity.
  - reflexivity.
  - constructor; [right; reflexivity | constructor].
Defined.

(** ** Backup *)

Lemma store_inl path data mode w fs' :
  store path data mode w = inl fs' →
  ∃ mode', fs' = <[path := File data mode']> (files w).
Proof.
  unfold store. destruct (files w !! path) as [[d m|]|]; [|done|].
  - destruct (writable m); [|done]. intros [= <-]. by eexists.
  - intros [= <-]. by eexists.
Qed.




(** A backup that is there, and an input that has changed since: the run
    makes no copy, and the backup is as it was. *)
Example existing_backup_kept :
  files backed_up_world !! "droid.backup"%string = Some (File (Buffer.from "pristine") 420)
  ∧ trace (world_of (patchDroid (live "droid" [isCustom]) backed_up_world))
    = [EvWriteFile "droid.patched" (Buffer.from "xxisCustom:!1yyisCustom:!1zz");
       EvChmod "droid.patched" 493]
  ∧ files (world_of (patchDroid (live "droid" [isCustom]) backed_up_world))
      !! "droid.backup"%string
    = Some (File (Buffer.from "pristine") 420).
Proof. vm_compute. repeat split. Qed.

(** ** The written output *)

Lemma same_name_output :
  Forall sameLength [twin1; twin2]
  ∧ apart (Buffer.from "aacc") [twin1; twin2]
  ∧ EvWriteFile "bin.patched" (Buffer.from "ddcc")
      ∈ trace (world_of (patchDroid (live "bin" [twin1; twin2]) twin_world))
  ∧ ¬ patched (Buffer.from "aacc") [twin1; twin2] (Buffer.from "ddcc").
Proof.
  split; [by repeat constructor|]. split; [|split].
  - intros patch1 pos1 patch2 pos2 [Hin1 Hpos1] [Hin2 Hpos2] Hdiff.
    apply elem_of_cons in Hin1 as [->|Hin1];
      [|apply list_elem_of_singleton in Hin1 as ->];
      (apply elem_of_cons in Hin2 as [->|Hin2];
        [|apply list_elem_of_singleton in Hin2 as ->]); try done;
      vm_compute in Hpos1, Hpos2;
      apply list_elem_of_singleton in Hpos1 as ->;
      apply list_elem_of_singleton in Hpos2 as ->; vm_compute; intuition congruence.
  - vm_compute. apply list_elem_of_further, list_elem_of_here.
  - intros (_ & Hrep & _).
    assert (recorded (Buffer.from "aacc") [twin1; twin2] twin1 0) as Hrec.
    { split; [by left|]. vm_compute. by left. }
    destruct (Hrep _ _ Hrec) as [_ Hbytes]. vm_compute in Hbytes. discriminate.
Qed.

(** C1, amended: patches with pairwise different names, pattern and
    replacement of equal length, occurrences that do not overlap.  What the
    engine writes, it writes at the output path, and it is the input buffer
    with, at every recorded offset of every patch, the bytes of the
    replacement in place of as many bytes of the input; every byte outside
    these spans is the byte of the input, and the length is the same.  For
    the buffer ["xxisCustom:!0yyisCustom:!0zz"] and the patch from
    ["isCustom:!0"] to ["isCustom:!1"], two offsets are found and the
    output is ["xxisCustom:!1yyisCustom:!1zz"]. *)
Theorem patched_output :
  (∀ (options : Options.t) (fs : gmap string node) (buffer : Buffer.t) (mode : Z),
     fs !! Options.inputPath options = Some (File buffer mode) →
     NoDup (map Patch.name (Options.patches options)) →
     Forall sameLength (Options.patches options) →
     apart buffer (Options.patches options) →
     ∀ path data,
       EvWriteFile path data ∈ trace (world_of (patchDroid options (World fs []))) →
       default false (Options.dryRun options) = false
       ∧ path = finalOutputPath options
       ∧ files (world_of (patchDroid options (World fs []))) !! path = Some (File data 493)
       ∧ patched buffer (Options.patches options) data)
  ∧ findAllPositions (Buffer.from "xxisCustom:!0yyisCustom:!0zz") (Patch.pattern isCustom)
    = Some [2; 15]
  ∧ ∃ r w',
      patchDroid (live "droid" [isCustom]) droid_world = Returned r w'
      ∧ RunResult.results r = [PatchResult.Make "isCustom" 2 (Some [2; 15]) true None]
      ∧ files w' !! "droid.patched"%string
        = Some (File (Buffer.from "xxisCustom:!1yyisCustom:!1zz") 493)
      ∧ trace w' = [EvCopyFile "droid" "droid.backup";
                    EvWriteFile "droid.patched" (Buffer.from "xxisCustom:!1yyisCustom:!1zz");
                    EvChmod "droid.patched" 493].
Proof.
  split; [|split; [reflexivity|]].
  - intros options fs buffer mode Hin Hnd Hsame Hapart path data Hev.
    destruct (patchDroid_written options fs path data Hev)
      as (buffer' & mode' & results & fs' & Hin' & Hr & Hc & Hd & Hf & -> & Hdata & Hs & Hrun).
    rewrite Hin in Hin'. injection Hin' as <- <-.
    split; [done|]. split; [done|]. split.
    + rewrite Hrun. destruct (verifyPatches _ _ _); apply afterWrite_lookup.
    + rewrite Hdata, (applyPatches_writes _ _ _ Hc Hnd). simpl.
      by apply writes_patched.
  - eexists _, _. split; [apply patchDroid_isCustom|]. split; [reflexivity|].
    split; [|reflexivity]. apply lookup_insert_eq.
Qed.

Lemma droid_apart :
  apart (Buffer.from "xxisCustom:!0yyisCustom:!0zz") [isCustom].
Proof.
  intros patch1 pos1 patch2 pos2 [Hin1 _] [Hin2 _] Hdiff.
  apply list_elem_of_singleton in Hin1 as ->.
  by apply list_elem_of_singleton in Hin2 as ->.
Qed.

Lemma patched_output_witness :
  default false (Options.dryRun (live "droid" [isCustom])) = false
  ∧ "droid.patched"%string = finalOutputPath (live "droid" [isCustom])
  ∧ files (world_of (patchDroid (live "droid" [isCustom]) (World (files droid_world) [])))
      !! "droid.patched"%string
    = Some (File (Buffer.from "xxisCustom:!1yyisCustom:!1zz") 493)
  ∧ patched (Buffer.from "xxisCustom:!0yyisCustom:!0zz") [isCustom]
            (Buffer.from "xxisCustom:!1yyisCustom:!1zz").
Proof.
  apply (proj1 patched_output (live "droid" [isCustom]) (files droid_world)
           (Buffer.from "xxisCustom:!0yyisCustom:!0zz") 493).
  - reflexivity.
  - vm_compute. repeat constructor. intros H. inversion H.
  - repeat constructor.
  - apply droid_apart.
  - vm_compute. apply list_elem_of_further, list_elem_of_here.
Defined.

(** ** Verification *)

Lemma verifyPatches_nonempty verifyBuffer patches allVerified b :
  verifyPatches verifyBuffer patches allVerified = Some b →
  Forall (λ patch, Patch.pattern patch ≠ []) patches.
Proof.
  revert allVerified. induction patches as [|patch patches IH]; intros allVerified H; [done|].
  simpl in H.
  destruct (findAllPositions verifyBuffer (Patch.pattern patch)) eqn:Ho; [|done].
  destruct (findAllPositions verifyBuffer (Patch.replacement patch)); [|done].
  simpl in H. constructor; [by eapply findAllPositions_nonempty | by eapply IH].
Qed.

Example verification_fails :
  patchDroid (live "bin" [half]) half_world =
  Returned
    (RunResult.Make false None (Some "bin.patched"%string)
       [PatchResult.Make "half" 1 (Some [0]) true None] None (Some 1))
    (World
       (<["bin.patched"%string := File (Buffer.from "baa") 493]>
       (<["bin.backup"%string := File (Buffer.from "aaa") 493]> (files half_world)))
       [EvCopyFile "bin" "bin.backup";
        EvWriteFile "bin.patched" (Buffer.from "baa");
        EvChmod "bin.patched" 493]).
Proof. vm_compute. reflexivity. Qed.

(** C2: a live run that has written its output.  The output is at the
    output path, executable, with the bytes written; these are the bytes
    the engine reads back and scans, and the result it returns has
    [success = true] exactly when no patch's pattern has an occurrence left
    in them.  When an occurrence is left the result has [success = false],
    and the written file is there all the same.  With non-empty patterns
    and replacements the run does return a result. *)
Theorem verification_decides_success (options : Options.t) (fs : gmap string node)
    (path : string) (out : Buffer.t) :
  EvWriteFile path out ∈ trace (world_of (patchDroid options (World fs []))) →
  default false (Options.dryRun options) = false
  ∧ path = finalOutputPath options
  ∧ files (world_of (patchDroid options (World fs []))) !! path = Some (File out 493)
  ∧ (Forall wellFormed (Options.patches options) →
     ∃ r w', patchDroid options (World fs []) = Returned r w')
  ∧ (∀ r w', patchDroid options (World fs []) = Returned r w' →
       files w' !! path = Some (File out 493)
       ∧ (RunResult.success r = true ↔
          Forall (λ patch, findAllPositions out (Patch.pattern patch) = Some [])
                 (Options.patches options))
       ∧ (RunResult.success r = true ↔
          ∀ patch q, patch ∈ Options.patches options →
                     ¬ matchesAt out (Patch.pattern patch) q)).
Proof.
  intros Hev.
  destruct (patchDroid_written options fs path out Hev)
    as (buffer & mode & results & fs' & Hin & Hr & Hc & Hd & Hf & -> & Hdata & Hs & Hrun).
  split; [done|]. split; [done|]. rewrite Hrun. clear Hrun Hev. split; [|split].
  - destruct (verifyPatches _ _ _); apply afterWrite_lookup.
  - intros Hwf. destruct (verifyPatches_total out (Options.patches options) true Hwf) as [b ->].
    by eexists _, _.
  - intros r w' Hret.
    destruct (verifyPatches out (Options.patches options) true) as [b|] eqn:Hv; [|done].
    injection Hret as <- <-. split; [apply afterWrite_lookup|]. simpl.
    pose proof (verifyPatches_true _ _ _ _ Hv) as Hb.
    pose proof (verifyPatches_nonempty _ _ _ _ Hv) as Hne.
    split; [rewrite Hb; split; [by intros [_ ?] | by intros ?]|].
    rewrite Hb, !Forall_forall. rewrite Forall_forall in Hne. split.
    + intros [_ Hall] patch q Hpatch. by apply findAllPositions_nil, Hall.
    + intros Hnone. split; [done|]. intros patch Hpatch.
      apply findAllPositions_nil. split; [by apply Hne|]. intros q. by apply Hnone.
Qed.

Lemma verification_decides_success_witness :
  default false (Options.dryRun (live "bin" [half])) = false
  ∧ "bin.patched"%string = finalOutputPath (live "bin" [half])
  ∧ files (world_of (patchDroid (live "bin" [half]) (World (files half_world) [])))
      !! "bin.patched"%string = Some (File (Buffer.from "baa") 493)
  ∧ (Forall wellFormed (Options.patches (live "bin" [half])) →
     ∃ r w', patchDroid (live "bin" [half]) (World (files half_world) []) = Returned r w')
  ∧ (∀ r w', patchDroid (live "bin" [half]) (World (files half_world) []) = Returned r w' →
       files w' !! "bin.patched"%string = Some (File (Buffer.from "baa") 493)
       ∧ (RunResult.success r = true ↔
          Forall (λ patch, findAllPositions (Buffer.from "baa") (Patch.pattern patch) = Some [])
                 (Options.patches (live "bin" [half])))
       ∧ (RunResult.success r = true ↔
          ∀ patch q, patch ∈ Options.patches (live "bin" [half]) →
                     ¬ matchesAt (Buffer.from "baa") (Patch.pattern patch) q)).
Proof.
  apply (verification_decides_success (live "bin" [half]) (files half_world)
           "bin.patched" (Buffer.from "baa")).
  vm_compute. apply list_elem_of_further, list_elem_of_here.
Defined.

(** ** Length *)

Lemma unequal_lengths_same_size :
  length (Patch.pattern longer) ≠ length (Patch.replacement longer)
  ∧ files longer_world !! "bin"%string = Some (File (Buffer.from "abcd") 493)
  ∧ EvWriteFile "bin.patched" (Buffer.from "xyzd")
      ∈ trace (world_of (patchDroid (live "bin" [longer]) longer_world))
  ∧ files (world_of (patchDroid (live "bin" [longer]) longer_world)) !! "bin.patched"%string
    = Some (File (Buffer.from "xyzd") 493)
  ∧ length (Buffer.from "xyzd") = length (Buffer.from "abcd").
Proof.
  split; [vm_compute; lia|]. split; [reflexivity|]. split; [|split; reflexivity].
  vm_compute. apply list_elem_of_further, list_elem_of_here.
Qed.

(** C9, amended: whatever the lengths of pattern and replacement, equal or
    not, what a live run writes has the length of the input: [copy] writes
    over the buffer and never makes it longer or shorter. *)
Theorem output_keeps_length (options : Options.t) (fs : gmap string node)
    (buffer : Buffer.t) (mode : Z) (path : string) (data : Buffer.t) :
  fs !! Options.inputPath options = Some (File buffer mode) →
  EvWriteFile path data ∈ trace (world_of (patchDroid options (World fs []))) →
  files (world_of (patchDroid options (World fs []))) !! path = Some (File data 493)
  ∧ length data = length buffer.
Proof.
  intros Hin Hev.
  destruct (patchDroid_written options fs path data Hev)
    as (buffer' & mode' & results & fs' & Hin' & Hr & Hc & Hd & Hf & -> & Hdata & Hs & Hrun).
  rewrite Hin in Hin'. injection Hin' as <- <-. split.
  - rewrite Hrun. destruct (verifyPatches _ _ _); apply afterWrite_lookup.
  - rewrite Hdata. apply applyPatches_length.
Qed.

Lemma output_keeps_length_witness :
  files (world_of (patchDroid (live "bin" [longer]) (World (files longer_world) [])))
    !! "bin.patched"%string = Some (File (Buffer.from "xyzd") 493)
  ∧ length (Buffer.from "xyzd") = length (Buffer.from "abcd").
Proof.
  apply (output_keeps_length (live "bin" [longer]) (files longer_world)
           (Buffer.from "abcd") 493 "bin.patched" (Buffer.from "xyzd")).
  - reflexivity.
  - vm_compute. apply list_elem_of_further, list_elem_of_here.
Defined.

(** * Further properties of the code *)

(** ** Scanning: nothing is missed *)

Lemma greedy_complete buffer pattern from positions q :
  greedy buffer pattern from positions → from ≤ q → matchesAt buffer pattern q →
  ∃ p, p ∈ positions ∧ p ≤ q < p + Buffer.length pattern.
Proof.
  intros Hg. revert q. induction Hg as [from Hnone|from p ps Hle Hm Hleft _ IH]; intros q Hq Hmq.
  - by destruct (Hnone q).
  - destruct (Z.lt_ge_cases q p) as [Hlt|Hge]; [by destruct (Hleft q)|].
    destruct (Z.lt_ge_cases q (p + Buffer.length pattern)) as [Hin|Hout].
    + exists p. split; [by left | lia].
    + destruct (IH q Hout Hmq) as (p' & Hp' & Hspan). exists p'. split; [by right | done].
Qed.

(** X1: every occurrence of a non-empty pattern in the buffer starts inside
    the span of an offset that [findAllPositions] returns: the only
    occurrences not returned are those that overlap a returned one. *)
Theorem findAllPositions_complete (buffer pattern : Buffer.t) (q : Z) :
  pattern ≠ [] → matchesAt buffer pattern q →
  ∃ positions p,
    findAllPositions buffer pattern = Some positions
    ∧ p ∈ positions ∧ p ≤ q < p + Buffer.length pattern.
Proof.
  intros Hne Hm. destruct (findAllPositions_greedy buffer pattern Hne) as (positions & Hf & Hg).
  destruct (greedy_complete _ _ _ _ q Hg) as (p & Hp & Hspan); [by destruct Hm as [[? _] _] | done |].
  by exists positions, p.
Qed.

Lemma findAllPositions_complete_witness :
  ∃ positions p,
    findAllPositions (Buffer.from "aaaaa") (Buffer.from "aa") = Some positions
    ∧ p ∈ positions ∧ p ≤ 1 < p + Buffer.length (Buffer.from "aa").
Proof.
  apply findAllPositions_complete; [discriminate|].
  split; [vm_compute; split; discriminate | reflexivity].
Defined.

(** ** The first pass: what a result holds *)

Lemma includes_true buffer value q :
  matchesAt buffer value q → Buffer.includes buffer value = true.
Proof.
  intros Hm. unfold Buffer.includes.
  destruct (Z.eqb_spec (Buffer.indexOf buffer value 0) (-1)) as [E|E]; [|done].
  destruct (indexOf_none buffer value 0 (Z.le_refl 0) E q); [|done].
  by destruct Hm as [[? _] _].
Qed.

(** X2: the result of a patch.  Its name is the patch's, [found] is the
    number of offsets recorded.  When the pattern is found, [positions]
    holds the offsets, [success] is true and there is no [alreadyPatched];
    when it is not, there is no [positions], and [success] and
    [alreadyPatched] are both [buffer.includes(replacement)]: the value the
    result is pushed with is the one the later assignments leave. *)
Theorem checkPatch_result (buffer : Buffer.t) (patch : Patch.t) (result : PatchResult.t) :
  checkPatch buffer patch = Some result →
  PatchResult.name result = Patch.name patch
  ∧ PatchResult.found result = Z.of_nat (length (occurrences buffer patch))
  ∧ (occurrences buffer patch ≠ [] →
       PatchResult.positions result = Some (occurrences buffer patch)
       ∧ PatchResult.success result = true
       ∧ PatchResult.alreadyPatched result = None)
  ∧ (occurrences buffer patch = [] →
       PatchResult.positions result = None
       ∧ PatchResult.success result = Buffer.includes buffer (Patch.replacement patch)
       ∧ PatchResult.alreadyPatched result
         = Some (Buffer.includes buffer (Patch.replacement patch))).
Proof.
  intros H. unfold occurrences.
  destruct (checkPatch_cases _ _ _ H)
    as [(ps & Hne & -> & ->) | [-> [(qs & Hne & Hr & ->) | [Hr ->]]]]; simpl.
  - repeat split; done.
  - assert (Buffer.includes buffer (Patch.replacement patch) = true) as ->.
    { destruct qs as [|q qs]; [done|].
      apply findAllPositions_Some_greedy in Hr. inversion Hr; subst.
      by eapply includes_true. }
    repeat split; done.
  - rewrite (includes_false _ _ Hr). repeat split; done.
Qed.

Lemma checkPatch_result_witness :
  PatchResult.name (PatchResult.Make "isCustom" 0 None true (Some true)) = Patch.name isCustom
  ∧ PatchResult.found (PatchResult.Make "isCustom" 0 None true (Some true))
    = Z.of_nat (length (occurrences isCustom_done isCustom))
  ∧ (occurrences isCustom_done isCustom ≠ [] →
       PatchResult.positions (PatchResult.Make "isCustom" 0 None true (Some true))
         = Some (occurrences isCustom_done isCustom)
       ∧ PatchResult.success (PatchResult.Make "isCustom" 0 None true (Some true)) = true
       ∧ PatchResult.alreadyPatched (PatchResult.Make "isCustom" 0 None true (Some true)) = None)
  ∧ (occurrences isCustom_done isCustom = [] →
       PatchResult.positions (PatchResult.Make "isCustom" 0 None true (Some true)) = None
       ∧ PatchResult.success (PatchResult.Make "isCustom" 0 None true (Some true))
         = Buffer.includes isCustom_done (Patch.replacement isCustom)
       ∧ PatchResult.alreadyPatched (PatchResult.Make "isCustom" 0 None true (Some true))
         = Some (Buffer.includes isCustom_done (Patch.replacement isCustom))).
Proof. apply (checkPatch_result isCustom_done isCustom). reflexivity. Defined.

(** ** Every run *)

(** The ways a run can go. *)
Lemma patchDroid_cases (options : Options.t) (w : world) :
  (∃ e, patchDroid options w = Threw e w)
  ∨ ∃ buffer mode,
      files w !! Options.inputPath options = Some (File buffer mode)
      ∧ readable mode = true
      ∧ ((checkPatches buffer (Options.patches options) [] = None
          ∧ patchDroid options w = Threw RangeError w)
         ∨ ∃ results,
             checkPatches buffer (Options.patches options) [] = Some results
             ∧ ((default false (Options.dryRun options) = true
                 ∧ patchDroid options w =
                   Returned
                     (RunResult.Make
                        (forallb (λ r, PatchResult.success r
                                       || truthy (PatchResult.alreadyPatched r)) results)
                        (Some true) None results None None) w)
                ∨ (default false (Options.dryRun options) = false
                   ∧ List.filter needed results = []
                   ∧ patchDroid options w =
                     Returned
                       (if forallb (λ r, truthy (PatchResult.alreadyPatched r)) results
                        then RunResult.Make true None (Some (Options.inputPath options))
                               results (Some true) None
                        else RunResult.Make false None None results None None) w)
                ∨ (default false (Options.dryRun options) = false
                   ∧ List.filter needed results ≠ []
                   ∧ patchDroid options w =
                     match store (finalOutputPath options)
                             (applyPatches (Options.patches options) results buffer).1
                             created_mode (afterBackup options buffer mode w) with
                     | inr e => Threw e (afterBackup options buffer mode w)
                     | inl fs =>
                         match verifyPatches
                                 (applyPatches (Options.patches options) results buffer).1
                                 (Options.patches options) true with
                         | None =>
                             Threw RangeError
                                   (afterWrite (finalOutputPath options)
                                      (applyPatches (Options.patches options) results buffer).1
                                      fs (afterBackup options buffer mode w))
                         | Some allVerified =>
                             Returned
                               (RunResult.Make allVerified None
                                  (Some (finalOutputPath options)) results None
                                  (Some (applyPatches (Options.patches options)
                                           results buffer).2))
                               (afterWrite (finalOutputPath options)
                                  (applyPatches (Options.patches options) results buffer).1
                                  fs (afterBackup options buffer mode w))
                         end
                     end))).
Proof.
  destruct (files w !! Options.inputPath options) as [[buffer mode|]|] eqn:Hin.
  - destruct (readable mode) eqn:Hr.
    + right. exists buffer, mode. split; [done|]. split; [done|].
      destruct (checkPatches buffer (Options.patches options) []) as [results|] eqn:Hc.
      * right. exists results. split; [done|].
        destruct (default false (Options.dryRun options)) eqn:Hd.
        { left. split; [done|]. by eapply patchDroid_dryRun. }
        right. destruct (List.filter needed results) as [|r rs] eqn:Hf.
        { left. split; [done|]. split; [done|]. by eapply patchDroid_nothing. }
        right. split; [done|]. split; [done|].
        apply (patchDroid_live options w buffer mode Hin Hr results Hc Hd).
        by rewrite Hf.
      * left. split; [done|]. by eapply patchDroid_scan_throws.
    + left. eexists. by eapply patchDroid_unreadable.
  - left. eexists. by apply patchDroid_directory.
  - left. eexists. by apply patchDroid_missing.
Qed.

(** X3: whenever the engine returns, in a dry run or a live one, written or
    not, [results] is the outcome of the first pass over the input as it was
    read: one result per patch, in the order of the patches and under their
    names. *)
Theorem results_follow_patches (options : Options.t) (w w' : world) (r : RunResult.t) :
  patchDroid options w = Returned r w' →
  ∃ buffer mode,
    files w !! Options.inputPath options = Some (File buffer mode)
    ∧ Forall2 (λ patch result, checkPatch buffer patch = Some result)
              (Options.patches options) (RunResult.results r)
    ∧ map PatchResult.name (RunResult.results r) = map Patch.name (Options.patches options).
Proof.
  intros Hret.
  destruct (patchDroid_cases options w)
    as [[e He] | (buffer & mode & Hin & Hr & [[_ Hh] | (results & Hc & Hcases)])];
    [congruence | congruence | ].
  exists buffer, mode. split; [done|].
  assert (RunResult.results r = results) as ->.
  { destruct Hcases as [(_ & Hrun) | [(_ & _ & Hrun) | (_ & _ & Hrun)]];
      rewrite Hrun in Hret.
    - by injection Hret as <- _.
    - injection Hret as <- _. by destruct (forallb _ _).
    - destruct (store _ _ _ _); [|done]. destruct (verifyPatches _ _ _); [|done].
      by injection Hret as <- _. }
  apply checkPatches_Forall2 in Hc as (news & -> & HF). simpl. split; [done|].
  clear Hcases Hret. induction HF as [|p res ps rs Hres _ IH]; [done|].
  simpl. by rewrite IH, (checkPatch_name _ _ _ Hres).
Qed.

Lemma results_follow_patches_witness :
  ∃ buffer mode,
    files droid_world !! Options.inputPath (live "droid" [isCustom]) = Some (File buffer mode)
    ∧ Forall2 (λ patch result, checkPatch buffer patch = Some result)
              (Options.patches (live "droid" [isCustom]))
              (RunResult.results
                 (RunResult.Make true None (Some "droid.patched"%string)
                    [PatchResult.Make "isCustom" 2 (Some [2; 15]) true None] None (Some 2)))
    ∧ map PatchResult.name
        (RunResult.results
           (RunResult.Make true None (Some "droid.patched"%string)
              [PatchResult.Make "isCustom" 2 (Some [2; 15]) true None] None (Some 2)))
      = map Patch.name (Options.patches (live "droid" [isCustom])).
Proof.
  eapply (results_follow_patches (live "droid" [isCustom]) droid_world).
  vm_compute. reflexivity.
Defined.

(** ** The count of replacements *)

Lemma sumFound_occurrences buffer patches results :
  Forall2 (λ patch result, checkPatch buffer patch = Some result) patches results →
  sumFound results = Z.of_nat (length (writes buffer patches)).
Proof.
  induction 1 as [|p r ps rs Hr _ IH]; [done|].
  unfold writes in *. simpl. rewrite IH, length_app, length_map.
  destruct (checkPatch_positions _ _ _ Hr) as [_ ->]. lia.
Qed.

Lemma sumFound_pos results :
  Forall (λ result, 0 ≤ PatchResult.found result) results →
  List.filter needed results ≠ [] → 0 < sumFound results.
Proof.
  induction 1 as [|r rs Hr Hrs IH]; [done|]. simpl.
  assert (0 ≤ sumFound rs) as Hsum.
  { clear IH. induction Hrs as [|r' rs' ? _ IH']; simpl; lia. }
  unfold needed at 1. destruct (Z.gtb_spec (PatchResult.found r) 0); simpl.
  - intros _. fold (sumFound rs). lia.
  - intros Hne. specialize (IH Hne). fold (sumFound rs). lia.
Qed.

(** X4: when patch names are pairwise different, the [patchedCount] of a
    returned result is the sum of the [found] counts of its results, and it
    is positive: a result carries a count only when something was
    replaced. *)
Theorem patchedCount_is_sum (options : Options.t) (w w' : world) (r : RunResult.t) (n : Z) :
  NoDup (map Patch.name (Options.patches options)) →
  patchDroid options w = Returned r w' →
  RunResult.patchedCount r = Some n →
  n = sumFound (RunResult.results r) ∧ 0 < n.
Proof.
  intros Hnd Hret Hn.
  destruct (patchDroid_cases options w)
    as [[e He] | (buffer & mode & Hin & Hr & [[_ Hh] | (results & Hc & Hcases)])];
    [congruence | congruence | ].
  destruct Hcases as [(_ & Hrun) | [(_ & _ & Hrun) | (_ & Hf & Hrun)]];
    rewrite Hrun in Hret.
  - injection Hret as <- _. done.
  - injection Hret as <- _. by destruct (forallb _ _).
  - destruct (store _ _ _ _); [|done]. destruct (verifyPatches _ _ _); [|done].
    injection Hret as <- _. simpl in *. injection Hn as <-.
    rewrite (applyPatches_writes _ _ _ Hc Hnd). simpl.
    pose proof Hc as (news & -> & HF)%checkPatches_Forall2. simpl in *.
    rewrite <- (sumFound_occurrences _ _ _ HF). split; [done|].
    apply sumFound_pos; [|done].
    clear -HF. induction HF as [|p res ps rs Hres _ IH]; constructor; [|done].
    destruct (checkPatch_positions _ _ _ Hres) as [_ ->]. lia.
Qed.

Lemma patchedCount_is_sum_witness :
  2 = sumFound (RunResult.results
                  (RunResult.Make true None (Some "droid.patched"%string)
                     [PatchResult.Make "isCustom" 2 (Some [2; 15]) true None] None (Some 2)))
  ∧ 0 < 2.
Proof.
  eapply (patchedCount_is_sum (live "droid" [isCustom]) droid_world).
  - vm_compute. repeat constructor. intros H. inversion H.
  - vm_compute. reflexivity.
  - reflexivity.
Defined.

(** ** What a run leaves alone *)

Lemma store_lookup_ne path data mode w fs' other :
  store path data mode w = inl fs' → other ≠ path → fs' !! other = files w !! other.
Proof. intros (m & ->)%store_inl Hne. by rewrite lookup_insert_ne. Qed.

(** The worlds a run can end in. *)
Lemma patchDroid_worlds (options : Options.t) (w : world) :
  world_of (patchDroid options w) = w
  ∨ ∃ buffer mode,
      files w !! Options.inputPath options = Some (File buffer mode)
      ∧ default false (Options.dryRun options) = false
      ∧ (world_of (patchDroid options w) = afterBackup options buffer mode w
         ∨ ∃ out fs',
             store (finalOutputPath options) out created_mode
                   (afterBackup options buffer mode w) = inl fs'
             ∧ world_of (patchDroid options w)
               = afterWrite (finalOutputPath options) out fs'
                   (afterBackup options buffer mode w)).
Proof.
  destruct (patchDroid_cases options w)
    as [[e ->] | (buffer & mode & Hin & Hr & [[_ ->] | (results & Hc & Hcases)])];
    [by left | by left | ].
  destruct Hcases as [(_ & ->) | [(_ & _ & ->) | (Hd & Hf & ->)]]; [by left | by left |].
  right. exists buffer, mode. split; [done|]. split; [done|].
  destruct (store _ _ _ _) as [fs'|e] eqn:Hs; [|by left].
  right. eexists _, fs'. split; [exact Hs|]. by destruct (verifyPatches _ _ _).
Qed.

Lemma afterWrite_frame path out fs' w1 other :
  store path out created_mode w1 = inl fs' → other ≠ path →
  files (afterWrite path out fs' w1) !! other = files w1 !! other.
Proof.
  intros Hs Hne. unfold afterWrite. simpl. rewrite lookup_insert_ne by done.
  by eapply store_lookup_ne.
Qed.

(** X5: the changes a run makes to the file system, however it ends, are
    at most these, in this order: one copy of the input to
    [<inputPath>.backup], made only with [backup] on and nothing at that
    path; then the write of the output path and its [chmod] to [0o755].  It
    makes no other change, and with [backup = false] no copy. *)
Theorem patchDroid_frame (options : Options.t) (w : world) :
  ∃ copy output,
    trace (world_of (patchDroid options w)) = trace w ++ copy ++ output
    ∧ (copy = []
       ∨ (copy = [EvCopyFile (Options.inputPath options) (backupPath options)]
          ∧ default true (Options.backup options) = true
          ∧ files w !! backupPath options = None))
    ∧ (output = []
       ∨ ∃ data, output = [EvWriteFile (finalOutputPath options) data;
                           EvChmod (finalOutputPath options) 493])
    ∧ (Options.backup options = Some false → copy = []).
Proof.
  destruct (patchDroid_worlds options w)
    as [-> | (buffer & mode & Hin & Hd & Hworld)].
  { exists [], []. rewrite !app_nil_r. repeat split; by left. }
  assert (∃ copy,
            trace (afterBackup options buffer mode w) = trace w ++ copy
            ∧ (copy = []
               ∨ (copy = [EvCopyFile (Options.inputPath options) (backupPath options)]
                  ∧ default true (Options.backup options) = true
                  ∧ files w !! backupPath options = None))
            ∧ (Options.backup options = Some false → copy = []))
    as (copy & Htrace & Hcopy & Hoff).
  { destruct (afterBackup_trace options buffer mode w) as [E | (Hnone & Hb & E)].
    - exists []. rewrite app_nil_r. split; [done|]. split; [by left | done].
    - eexists. rewrite E. simpl. split; [done|]. split; [by right|].
      intros Hb'. rewrite Hb' in Hb. done. }
  destruct Hworld as [-> | (out & fs' & Hs & ->)].
  - exists copy, []. rewrite app_nil_r. repeat split; [done | done | by left | done].
  - exists copy, [EvWriteFile (finalOutputPath options) out;
                  EvChmod (finalOutputPath options) 493].
    unfold afterWrite. simpl. rewrite Htrace, <- !app_assoc.
    repeat split; [done | right; by exists out | done].
Qed.

Lemma patchDroid_frame_witness :
  ∃ copy output,
    trace (world_of (patchDroid (Options.Make "droid" None [isCustom] None (Some false) None)
                       droid_world))
    = trace droid_world ++ copy ++ output
    ∧ (copy = []
       ∨ (copy = [EvCopyFile
                    (Options.inputPath (Options.Make "droid" None [isCustom] None (Some false) None))
                    (backupPath (Options.Make "droid" None [isCustom] None (Some false) None))]
          ∧ default true (Options.backup
                            (Options.Make "droid" None [isCustom] None (Some false) None)) = true
          ∧ files droid_world
              !! backupPath (Options.Make "droid" None [isCustom] None (Some false) None) = None))
    ∧ (output = []
       ∨ ∃ data,
           output = [EvWriteFile
                       (finalOutputPath (Options.Make "droid" None [isCustom] None (Some false) None))
                       data;
                     EvChmod
                       (finalOutputPath (Options.Make "droid" None [isCustom] None (Some false) None))
                       493])
    ∧ copy = [].
Proof.
  destruct (patchDroid_frame (Options.Make "droid" None [isCustom] None (Some false) None)
              droid_world) as (copy & output & Htrace & Hcopy & Hout & Hoff).
  exists copy, output. repeat split; [done | done | done | by apply Hoff].
Defined.

(** ** Running the engine on its own output *)

Lemma checkPatches_of_Forall2 buffer patches results acc :
  Forall2 (λ patch result, checkPatch buffer patch = Some result) patches results →
  checkPatches buffer patches acc = Some (acc ++ results).
Proof.
  intros HF. revert acc. induction HF as [|p r ps rs Hr _ IH]; intros acc; simpl.
  - by rewrite app_nil_r.
  - rewrite Hr. simpl. rewrite IH. by rewrite <- app_assoc.
Qed.

(** A buffer without the pattern and with the replacement. *)
Lemma checkPatch_alreadyPatched out patch pos :
  findAllPositions out (Patch.pattern patch) = Some [] →
  Patch.replacement patch ≠ [] →
  matchesAt out (Patch.replacement patch) pos →
  checkPatch out patch = Some (PatchResult.Make (Patch.name patch) 0 None true (Some true)).
Proof.
  intros Hp Hne Hm. unfold checkPatch. rewrite Hp. simpl.
  destruct (findAllPositions_greedy out _ Hne) as ([|q qs] & -> & Hg); simpl; [|done].
  inversion Hg as [? Hnone|]; subst. destruct (Hnone pos); [|done].
  by destruct Hm as [[? _] _].
Qed.

(** X7: the engine run a second time, on the file it has written.  Take
    patches with pairwise different names, patterns and replacements of the
    same length and occurrences that do not overlap, each found in the
    input, and a live run that returns [success = true].  A live run with
    the same patches on its output then finds no pattern, reports every
    patch as already patched and returns [success = true] and
    [noPatchNeeded = true], without any change to the files. *)
Theorem second_run_changes_nothing (options : Options.t) (w w' : world)
    (buffer : Buffer.t) (mode : Z) (r : RunResult.t) :
  files w !! Options.inputPath options = Some (File buffer mode) →
  NoDup (map Patch.name (Options.patches options)) →
  Forall sameLength (Options.patches options) →
  apart buffer (Options.patches options) →
  Options.patches options ≠ [] →
  Forall (λ patch, occurrences buffer patch ≠ []) (Options.patches options) →
  default false (Options.dryRun options) = false →
  patchDroid options w = Returned r w' →
  RunResult.success r = true →
  ∃ results,
    patchDroid (again options) w' =
    Returned (RunResult.Make true None (Some (finalOutputPath options)) results
                (Some true) None) w'
    ∧ Forall2 (λ patch result,
                 result = PatchResult.Make (Patch.name patch) 0 None true (Some true))
              (Options.patches options) results.
Proof.
  intros Hin Hnd Hsame Hapart Hsome Hocc Hd Hret Hsucc.
  destruct (patchDroid_cases options w)
    as [[e He] | (buffer' & mode' & Hin' & Hr & [[_ Hh] | (results & Hc & Hcases)])];
    [congruence | congruence | ].
  rewrite Hin in Hin'. injection Hin' as <- <-.
  pose proof Hc as (news & Hnews & HF)%checkPatches_Forall2. simpl in Hnews. subst news.
  assert (List.filter needed results ≠ []) as Hneeded.
  { destruct HF as [|p res ps rs Hres _]; [done|].
    apply Forall_cons in Hocc as [Hp _].
    unfold occurrences in Hp.
    destruct (checkPatch_cases _ _ _ Hres)
      as [(positions & Hne & Hpos & ->) | [Hnone _]];
      [|by rewrite Hnone in Hp].
    simpl. unfold needed at 1. simpl.
    destruct positions; [done|]. simpl. done. }
  destruct Hcases as [(Hd' & _) | [(_ & Hf & _) | (_ & _ & Hrun)]];
    [congruence | done |].
  rewrite Hrun in Hret. clear Hrun.
  destruct (store _ _ _ _) as [fs'|e] eqn:Hs; [|done].
  destruct (verifyPatches _ _ _) as [b|] eqn:Hv; [|done].
  injection Hret as <- <-. simpl in Hsucc. subst b.
  apply verifyPatches_true in Hv as [Hv _]. specialize (Hv eq_refl) as [_ Hgone].
  rewrite (applyPatches_writes _ _ _ Hc Hnd) in *. simpl in *.
  set (out := applyWrites (writes buffer (Options.patches options)) buffer) in *.
  pose proof (writes_patched buffer (Options.patches options) Hnd Hsame Hapart)
    as (_ & Hrep & _). fold out in Hrep.
  set (results2 := map (λ patch, PatchResult.Make (Patch.name patch) 0 None true (Some true))
                       (Options.patches options)).
  assert (Forall2 (λ patch result, checkPatch out patch = Some result)
                  (Options.patches options) results2) as HF2.
  { subst results2. apply Forall2_fmap_r, Forall_Forall2_diag.
    apply Forall_forall. intros patch Hpatch.
    rewrite Forall_forall in Hgone, Hocc, Hsame.
    destruct (occurrences buffer patch) as [|pos ps] eqn:Ho; [by destruct (Hocc patch Hpatch)|].
    assert (recorded buffer (Options.patches options) patch pos) as Hrec.
    { split; [done|]. rewrite Ho. by left. }
    apply (checkPatch_alreadyPatched out patch pos); [by apply Hgone| |by apply Hrep].
    pose proof (findAllPositions_nonempty _ _ _ (Hgone patch Hpatch)) as Hne.
    specialize (Hsame patch Hpatch). unfold sameLength in Hsame.
    destruct (Patch.replacement patch); [|done]. by destruct (Patch.pattern patch). }
  exists results2. split.
  - pose proof (checkPatches_of_Forall2 out _ _ [] HF2) as Hc2. simpl in Hc2.
    rewrite (patchDroid_nothing (again options) _ out 493 (afterWrite_lookup _ _ _ _)
               eq_refl results2 Hc2 Hd).
    + assert (forallb (λ r, truthy (PatchResult.alreadyPatched r)) results2 = true) as ->; [|done].
      apply forallb_forall. subst results2. intros x Hx%in_map_iff.
      by destruct Hx as (p & <- & _).
    + apply filter_needed_nil, Forall_forall. subst results2.
      intros x (p & -> & _)%list_elem_of_fmap. done.
  - subst results2. apply Forall2_fmap_r, Forall_Forall2_diag. by apply Forall_forall.
Qed.

Lemma second_run_changes_nothing_witness :
  ∃ results,
    patchDroid (again (live "droid" [isCustom]))
      (World
         (<["droid.patched"%string := File (Buffer.from "xxisCustom:!1yyisCustom:!1zz") 493]>
         (<["droid.backup"%string := File (Buffer.from "xxisCustom:!0yyisCustom:!0zz") 493]>
            (files droid_world)))
         [EvCopyFile "droid" "droid.backup";
          EvWriteFile "droid.patched" (Buffer.from "xxisCustom:!1yyisCustom:!1zz");
          EvChmod "droid.patched" 493]) =
    Returned (RunResult.Make true None (Some (finalOutputPath (live "droid" [isCustom])))
                results (Some true) None)
      (World
         (<["droid.patched"%string := File (Buffer.from "xxisCustom:!1yyisCustom:!1zz") 493]>
         (<["droid.backup"%string := File (Buffer.from "xxisCustom:!0yyisCustom:!0zz") 493]>
            (files droid_world)))
         [EvCopyFile "droid" "droid.backup";
          EvWriteFile "droid.patched" (Buffer.from "xxisCustom:!1yyisCustom:!1zz");
          EvChmod "droid.patched" 493])
    ∧ Forall2 (λ patch result,
                 result = PatchResult.Make (Patch.name patch) 0 None true (Some true))
              (Options.patches (live "droid" [isCustom])) results.
Proof.
  eapply (second_run_changes_nothing (live "droid" [isCustom]) droid_world _
            (Buffer.from "xxisCustom:!0yyisCustom:!0zz") 493).
  - reflexivity.
  - vm_compute. repeat constructor. intros H. inversion H.
  - repeat constructor.
  - apply droid_apart.
  - discriminate.
  - repeat constructor. discriminate.
  - reflexivity.
  - apply patchDroid_isCustom.
  - reflexivity.
Defined.

(** ** [getContext] *)

Example getContext_isCustom :
  getContext (Buffer.from "xxisCustom:!0yyisCustom:!0zz") 15 11 3 = "0yyisCustom:!0zz"%string.
Proof. reflexivity. Qed.

Example getContext_binary :
  getContext [x00; x41; x7f; x42; xff] 1 1 25 = ".A.B."%string.
Proof. reflexivity. Qed.

Section GetContext.
Implicit Types buffer pattern : Buffer.t.

Lemma append_assoc (s t u : string) :
  String.append (String.append s t) u = String.append s (String.append t u).
Proof.
  induction s as [|c s IH]; [done|].
  change (String c (String.append (String.append s t) u)
          = String c (String.append s (String.append t u))).
  by rewrite IH.
Qed.

Lemma append_empty (s : string) : String.append s EmptyString = s.
Proof.
  induction s as [|c s IH]; [done|].
  change (String c (String.append s EmptyString) = String c s). by rewrite IH.
Qed.

(** The loop appends what it shows for each byte, in order. *)
Lemma getContext_shown buffer position patternLength contextSize :
  getContext buffer position patternLength contextSize =
  string_of_list_ascii
    (map shown (slice buffer (Z.max 0 (position - contextSize))
                  (Z.min (Buffer.length buffer) (position + patternLength + contextSize)))).
Proof.
  unfold getContext.
  generalize (slice buffer (Z.max 0 (position - contextSize))
                (Z.min (Buffer.length buffer) (position + patternLength + contextSize))).
  intros l.
  assert (∀ acc,
            fold_left (λ str c,
                         if printable c
                         then String.append str (String (Ascii.ascii_of_byte c) EmptyString)
                         else String.append str ".") l acc
            = String.append acc (string_of_list_ascii (map shown l))) as H.
  { induction l as [|c l IH]; intros acc; simpl; [by rewrite append_empty|].
    rewrite IH. unfold shown. destruct (printable c); by rewrite append_assoc. }
  apply H.
Qed.

Lemma length_string_of_list_ascii (l : list Ascii.ascii) :
  String.length (string_of_list_ascii l) = length l.
Proof. induction l as [|a l IH]; simpl; [done | by rewrite IH]. Qed.

Lemma slice_inside buffer (start end_ : Z) :
  0 ≤ start → 0 ≤ end_ →
  slice buffer start end_ =
  take (Z.to_nat (Z.min end_ (Buffer.length buffer) - Z.min start (Buffer.length buffer)))
       (drop (Z.to_nat (Z.min start (Buffer.length buffer))) buffer).
Proof.
  intros Hs He. unfold slice.
  destruct (Z.ltb_spec start 0); [lia|]. by destruct (Z.ltb_spec end_ 0); [lia|].
Qed.

Lemma shown_printable (c : byte) :
  32 ≤ Z.of_N (Ascii.N_of_ascii (shown c)) < 127.
Proof.
  unfold shown. destruct (printable c) eqn:E; [|vm_compute; split; [discriminate|done]].
  unfold printable in E. apply andb_true_iff in E as [H1%Z.leb_le H2%Z.ltb_lt].
  rewrite Ascii.ascii_of_byte_via_N, Ascii.N_ascii_embedding; [lia|].
  pose proof (Byte.to_N_bounded c). lia.
Qed.

Lemma get_of_list (l : list Ascii.ascii) (i : nat) :
  String.get i (string_of_list_ascii l) = l !! i.
Proof.
  revert i. induction l as [|a l IH]; intros [|i]; simpl; first [done | apply IH].
Qed.

(** X8: what [getContext] returns is text: each character is a printable
    ASCII character.  For a position, a pattern length and a context size
    that are not negative, it shows the bytes of the buffer from
    [max(0, position - contextSize)] up to
    [min(buffer.length, position + patternLength + contextSize)], one
    character per byte and in their order, a byte from 32 to 126 as itself
    and any other byte as a dot; so it has at most the pattern length and
    twice the context size in characters, and no more than the buffer has
    bytes. *)
Theorem getContext_text buffer (position patternLength contextSize : Z) :
  Forall (λ a, 32 ≤ Z.of_N (Ascii.N_of_ascii a) < 127)
         (list_ascii_of_string (getContext buffer position patternLength contextSize))
  ∧ (0 ≤ position → 0 ≤ patternLength → 0 ≤ contextSize →
     Z.of_nat (String.length (getContext buffer position patternLength contextSize))
       = Z.max 0 (Z.min (Buffer.length buffer) (position + patternLength + contextSize)
                  - Z.max 0 (position - contextSize))
     ∧ (∀ (i : nat) c,
          Z.of_nat i < Z.min (Buffer.length buffer) (position + patternLength + contextSize)
                       - Z.max 0 (position - contextSize) →
          buffer !! (Z.to_nat (Z.max 0 (position - contextSize)) + i)%nat = Some c →
          String.get i (getContext buffer position patternLength contextSize)
          = Some (if printable c then Ascii.ascii_of_byte c else Ascii.ascii_of_byte x2e))
     ∧ Z.of_nat (String.length (getContext buffer position patternLength contextSize))
       ≤ patternLength + 2 * contextSize
     ∧ Z.of_nat (String.length (getContext buffer position patternLength contextSize))
       ≤ Buffer.length buffer).
Proof.
  rewrite getContext_shown, list_ascii_of_string_of_list_ascii, length_string_of_list_ascii.
  split.
  - apply Forall_forall. intros a (c & -> & _)%list_elem_of_fmap. apply shown_printable.
  - intros Hp Hl Hc. rewrite length_map, slice_inside by (unfold Buffer.length; lia).
    rewrite length_take, length_drop.
    split; [unfold Buffer.length; lia|]. split; [|unfold Buffer.length; lia].
    intros i c Hi Hb. rewrite get_of_list, list_lookup_fmap.
    unfold Buffer.length in *.
    rewrite lookup_take_lt by lia. rewrite lookup_drop.
    replace (Z.to_nat (Z.min (Z.max 0 (position - contextSize)) (Z.of_nat (length buffer))) + i)%nat
      with (Z.to_nat (Z.max 0 (position - contextSize)) + i)%nat by lia.
    by rewrite Hb.
Qed.

Lemma getContext_text_witness :
  Z.of_nat (String.length (getContext (Buffer.from "xxisCustom:!0yyisCustom:!0zz") 15 11 3))
    = Z.max 0 (Z.min (Buffer.length (Buffer.from "xxisCustom:!0yyisCustom:!0zz")) (15 + 11 + 3)
               - Z.max 0 (15 - 3))
  ∧ (∀ (i : nat) c,
       Z.of_nat i < Z.min (Buffer.length (Buffer.from "xxisCustom:!0yyisCustom:!0zz"))
                          (15 + 11 + 3)
                    - Z.max 0 (15 - 3) →
       Buffer.from "xxisCustom:!0yyisCustom:!0zz" !! (Z.to_nat (Z.max 0 (15 - 3)) + i)%nat
         = Some c →
       String.get i (getContext (Buffer.from "xxisCustom:!0yyisCustom:!0zz") 15 11 3)
       = Some (if printable c then Ascii.ascii_of_byte c else Ascii.ascii_of_byte x2e))
  ∧ Z.of_nat (String.length (getContext (Buffer.from "xxisCustom:!0yyisCustom:!0zz") 15 11 3))
    ≤ 11 + 2 * 3
  ∧ Z.of_nat (String.length (getContext (Buffer.from "xxisCustom:!0yyisCustom:!0zz") 15 11 3))
    ≤ Buffer.length (Buffer.from "xxisCustom:!0yyisCustom:!0zz").
Proof.
  apply (proj2 (getContext_text (Buffer.from "xxisCustom:!0yyisCustom:!0zz") 15 11 3));
    discriminate.
Defined.

Lemma substring_of_list (n m : nat) (l : list Ascii.ascii) :
  substring n m (string_of_list_ascii l) = string_of_list_ascii (take m (drop n l)).
Proof.
  revert n m. induction l as [|a l IH]; intros [|n] [|m]; simpl; try done;
    by rewrite IH.
Qed.

(** X9: at an occurrence of a pattern made of printable bytes, the context
    shows the pattern itself, after as many characters as there are bytes of
    context before the occurrence. *)
Theorem getContext_shows_pattern buffer pattern (position contextSize : Z) :
  matchesAt buffer pattern position →
  0 ≤ contextSize →
  Forall (λ c, printable c = true) pattern →
  substring (Z.to_nat (position - Z.max 0 (position - contextSize))) (length pattern)
            (getContext buffer position (Buffer.length pattern) contextSize)
  = string_of_list_byte pattern.
Proof.
  intros Hm Hc Hprint. pose proof (matchesAt_bound _ _ _ Hm) as [H0 Hb].
  destruct Hm as [_ Hm].
  rewrite getContext_shown, substring_of_list. unfold string_of_list_byte. f_equal.
  rewrite slice_inside by (unfold Buffer.length in *; lia).
  set (start := Z.max 0 (position - contextSize)).
  set (end_ := Z.min (Buffer.length buffer) (position + Buffer.length pattern + contextSize)).
  assert (Z.min start (Buffer.length buffer) = start) as -> by (unfold Buffer.length in *; lia).
  assert (Z.min end_ (Buffer.length buffer) = end_) as -> by lia.
  rewrite <- fmap_drop, <- fmap_take.
  assert (take (length pattern)
            (drop (Z.to_nat (position - start))
               (take (Z.to_nat (end_ - start)) (drop (Z.to_nat start) buffer)))
          = pattern) as ->.
  { unfold Buffer.length in *.
    replace (Z.to_nat (end_ - start))
      with (Z.to_nat (position - start) + Z.to_nat (end_ - position))%nat by lia.
    rewrite <- take_drop_commute, take_take, drop_drop.
    replace (Z.to_nat start + Z.to_nat (position - start))%nat with (Z.to_nat position) by lia.
    by replace (length pattern `min` Z.to_nat (end_ - position))%nat
      with (length pattern) by lia. }
  apply Forall_fmap_ext_1. eapply Forall_impl; [exact Hprint|].
  intros c Hcp. unfold shown. by rewrite Hcp.
Qed.

Lemma getContext_shows_pattern_witness :
  substring (Z.to_nat (15 - Z.max 0 (15 - 3))) (length (Buffer.from "isCustom:!0"))
            (getContext (Buffer.from "xxisCustom:!0yyisCustom:!0zz") 15
               (Buffer.length (Buffer.from "isCustom:!0")) 3)
  = string_of_list_byte (Buffer.from "isCustom:!0").
Proof.
  apply getContext_shows_pattern.
  - split; [vm_compute; split; discriminate | reflexivity].
  - discriminate.
  - repeat constructor.
Defined.

End GetContext.

(** ** The patches of the command line *)

Example cliPatches_both : cliPatches true true = [isCustom; skipLogin].
Proof. reflexivity. Qed.

Lemma matchesAt_byte buffer value p (k : nat) c :
  matchesAt buffer value p → value !! k = Some c →
  buffer !! (Z.to_nat p + k)%nat = Some c.
Proof.
  intros [_ Hm] Hk. rewrite <- Hm in Hk.
  apply lookup_take_Some in Hk as [Hk _]. by rewrite lookup_drop in Hk.
Qed.

(** Two sequences of bytes, the first byte of the one not a byte of the
    other: an occurrence of the one does not start inside an occurrence of
    the other. *)
Lemma first_byte_apart buffer (value1 value2 : Buffer.t) c p1 p2 :
  value2 !! 0%nat = Some c → c ∉ value1 →
  matchesAt buffer value1 p1 → matchesAt buffer value2 p2 →
  ¬ (p1 ≤ p2 < p1 + Buffer.length value1).
Proof.
  intros Hc Hnot Hm1 Hm2 Hspan. unfold Buffer.length in Hspan.
  pose proof (matchesAt_byte _ _ _ _ _ Hm2 Hc) as Hb.
  destruct (lookup_lt_is_Some_2 value1 (Z.to_nat (p2 - p1))) as [c' Hc']; [lia|].
  pose proof (matchesAt_byte _ _ _ _ _ Hm1 Hc') as Hb'.
  pose proof (proj1 (proj1 Hm1)) as H0.
  replace (Z.to_nat p1 + Z.to_nat (p2 - p1))%nat with (Z.to_nat p2 + 0)%nat in Hb' by lia.
  rewrite Hb in Hb'. injection Hb' as <-.
  apply Hnot. by eapply list_elem_of_lookup_2.
Qed.

Lemma isCustom_skipLogin_apart buffer p1 p2 :
  matchesAt buffer (Patch.pattern isCustom) p1 →
  matchesAt buffer (Patch.pattern skipLogin) p2 →
  p1 + Buffer.length (Patch.pattern isCustom) ≤ p2
  ∨ p2 + Buffer.length (Patch.pattern skipLogin) ≤ p1.
Proof.
  intros Hm1 Hm2.
  assert (¬ (p1 ≤ p2 < p1 + Buffer.length (Patch.pattern isCustom))) as H12.
  { apply (first_byte_apart buffer _ (Patch.pattern skipLogin) x70); [done| |done|done].
    intros H. vm_compute in H.
    repeat (apply elem_of_cons in H as [H|H]; [discriminate|]). by apply elem_of_nil in H. }
  assert (¬ (p2 ≤ p1 < p2 + Buffer.length (Patch.pattern skipLogin))) as H21.
  { apply (first_byte_apart buffer _ (Patch.pattern isCustom) x69); [done| |done|done].
    intros H. vm_compute in H.
    repeat (apply elem_of_cons in H as [H|H]; [discriminate|]). by apply elem_of_nil in H. }
  lia.
Qed.

(** What the engine asks of its patches holds of those of the command
    line, whatever the flags and whatever the buffer. *)
Lemma cliPatches_fit (isCustomFlag skipLoginFlag : bool) (buffer : Buffer.t) :
  NoDup (map Patch.name (cliPatches isCustomFlag skipLoginFlag))
  ∧ Forall sameLength (cliPatches isCustomFlag skipLoginFlag)
  ∧ Forall wellFormed (cliPatches isCustomFlag skipLoginFlag)
  ∧ apart buffer (cliPatches isCustomFlag skipLoginFlag).
Proof.
  split; [|split; [|split]].
  - destruct isCustomFlag, skipLoginFlag; vm_compute; repeat constructor;
      intros H; repeat (apply elem_of_cons in H as [H|H]; [discriminate|]);
      by apply elem_of_nil in H.
  - destruct isCustomFlag, skipLoginFlag; by repeat constructor.
  - destruct isCustomFlag, skipLoginFlag; by repeat constructor.
  - intros patch1 pos1 patch2 pos2 [Hin1 Hpos1%occurrences_matchesAt]
      [Hin2 Hpos2%occurrences_matchesAt] Hdiff.
    assert (∀ patch, patch ∈ cliPatches isCustomFlag skipLoginFlag →
              patch = isCustom ∨ patch = skipLogin) as Hcases.
    { intros patch H. destruct isCustomFlag, skipLoginFlag; simpl in H;
        repeat (apply elem_of_cons in H as [->|H]; [by auto|]); by apply elem_of_nil in H. }
    destruct (Hcases _ Hin1) as [-> | ->], (Hcases _ Hin2) as [-> | ->]; try done.
    + by apply (isCustom_skipLogin_apart buffer).
    + destruct (isCustom_skipLogin_apart buffer pos2 pos1); [done | done | by right | by left].
Qed.

(** X10: the patches the command line builds from [--is-custom] and
    [--skip-login] have different names and, each, a pattern and a
    replacement of the same length, not empty; and in no buffer does an
    occurrence of the one pattern overlap an occurrence of the other.  So,
    for every binary, what the engine writes for them is the binary with
    each recorded occurrence replaced and every other byte as it was. *)
Theorem cli_patches_always_apply (isCustomFlag skipLoginFlag : bool)
    (options : Options.t) (fs : gmap string node) (buffer : Buffer.t) (mode : Z) :
  Options.patches options = cliPatches isCustomFlag skipLoginFlag →
  fs !! Options.inputPath options = Some (File buffer mode) →
  NoDup (map Patch.name (Options.patches options))
  ∧ Forall sameLength (Options.patches options)
  ∧ apart buffer (Options.patches options)
  ∧ ∀ path data,
      EvWriteFile path data ∈ trace (world_of (patchDroid options (World fs []))) →
      patched buffer (Options.patches options) data.
Proof.
  intros Hp Hin.
  destruct (cliPatches_fit isCustomFlag skipLoginFlag buffer) as (Hnd & Hsame & _ & Hapart).
  rewrite <- Hp in Hnd, Hsame, Hapart.
  split; [done|]. split; [done|]. split; [done|].
  intros path data Hev.
  destruct (patchDroid_written options fs path data Hev)
    as (buffer' & mode' & results & fs' & Hin' & Hr & Hc & Hd & Hf & -> & Hdata & Hs & Hrun).
  rewrite Hin in Hin'. injection Hin' as <- <-.
  rewrite Hdata, (applyPatches_writes _ _ _ Hc); [|done].
  simpl. by apply writes_patched.
Qed.

Lemma cli_patches_always_apply_witness :
  NoDup (map Patch.name (Options.patches (live "droid" [isCustom])))
  ∧ Forall sameLength (Options.patches (live "droid" [isCustom]))
  ∧ apart (Buffer.from "xxisCustom:!0yyisCustom:!0zz") (Options.patches (live "droid" [isCustom]))
  ∧ ∀ path data,
      EvWriteFile path data
        ∈ trace (world_of (patchDroid (live "droid" [isCustom]) (World (files droid_world) []))) →
      patched (Buffer.from "xxisCustom:!0yyisCustom:!0zz")
              (Options.patches (live "droid" [isCustom])) data.
Proof.
  apply (cli_patches_always_apply true false (live "droid" [isCustom]) (files droid_world)
           (Buffer.from "xxisCustom:!0yyisCustom:!0zz") 493); reflexivity.
Defined.

(** ** The order of the patches *)

Lemma covered_dec (ws : list (Z * Buffer.t)) (i : Z) :
  (∃ w, w ∈ ws ∧ w.1 ≤ i < w.1 + Buffer.length w.2)
  ∨ (∀ w, w ∈ ws → ¬ (w.1 ≤ i < w.1 + Buffer.length w.2)).
Proof.
  induction ws as [|w ws IH]; [right; by intros w ?%elem_of_nil|].
  destruct (Z_le_dec w.1 i) as [H1|H1], (Z_lt_dec i (w.1 + Buffer.length w.2)) as [H2|H2];
    try (destruct IH as [(w' & Hin & Hw') | Hnone];
         [left; exists w'; split; [by right | done]
         |right; intros w' [->|Hin]%elem_of_cons; [lia | by apply Hnone]]).
  left. exists w. split; [by left | done].
Qed.

(** There is one buffer that is the input with the occurrences replaced. *)
Lemma patched_unique buffer patches out1 out2 :
  patched buffer patches out1 → patched buffer patches out2 → out1 = out2.
Proof.
  intros (Hl1 & Hin1 & Hout1) (Hl2 & Hin2 & Hout2). apply list_eq. intros i.
  destruct (covered_dec (writes buffer patches) (Z.of_nat i))
    as [(w & (patch & pos & -> & Hrec)%elem_of_writes & Hspan) | Hnone].
  - simpl in Hspan. unfold Buffer.length in Hspan.
    pose proof (Hin1 _ _ Hrec) as Hm1. pose proof (Hin2 _ _ Hrec) as Hm2.
    pose proof (proj1 (proj1 Hm1)) as H0.
    destruct (lookup_lt_is_Some_2 (Patch.replacement patch) (Z.to_nat (Z.of_nat i - pos)))
      as [c Hc]; [lia|].
    pose proof (matchesAt_byte _ _ _ _ _ Hm1 Hc) as Hb1.
    pose proof (matchesAt_byte _ _ _ _ _ Hm2 Hc) as Hb2.
    replace (Z.to_nat pos + Z.to_nat (Z.of_nat i - pos))%nat with i in Hb1, Hb2 by lia.
    by rewrite Hb1, Hb2.
  - assert (∀ patch pos, recorded buffer patches patch pos →
              ¬ (pos ≤ Z.of_nat i < pos + Buffer.length (Patch.replacement patch))) as Hfree.
    { intros patch pos Hrec.
      apply (Hnone (pos, Patch.replacement patch)), elem_of_writes. by exists patch, pos. }
    by rewrite (Hout1 i Hfree), (Hout2 i Hfree).
Qed.

Lemma patched_Permutation buffer patches patches' out :
  patches ≡ₚ patches' → patched buffer patches out → patched buffer patches' out.
Proof.
  intros Hperm (Hl & Hin & Hout).
  assert (∀ patch pos, recorded buffer patches' patch pos → recorded buffer patches patch pos)
    as Hrec by (intros patch pos [H1 H2]; split; [by rewrite Hperm | done]).
  assert (∀ patch pos, recorded buffer patches patch pos → recorded buffer patches' patch pos)
    as Hrec' by (intros patch pos [H1 H2]; split; [by rewrite <- Hperm | done]).
  split; [done|]. split.
  - intros patch pos H. by apply Hin, Hrec.
  - intros i H. apply Hout. intros patch pos Hr. by apply H, Hrec'.
Qed.

(** X11: the order in which the caller lists the patches does not matter
    to what is written.  For patches with pairwise different names,
    patterns and replacements of the same length and occurrences that do
    not overlap, a run with the patches in one order and a run on the same
    input with them in another write the same bytes. *)
Theorem patch_order_irrelevant (options options' : Options.t) (fs fs' : gmap string node)
    (buffer : Buffer.t) (mode mode' : Z) (path path' : string) (data data' : Buffer.t) :
  Options.patches options ≡ₚ Options.patches options' →
  NoDup (map Patch.name (Options.patches options)) →
  Forall sameLength (Options.patches options) →
  apart buffer (Options.patches options) →
  fs !! Options.inputPath options = Some (File buffer mode) →
  fs' !! Options.inputPath options' = Some (File buffer mode') →
  EvWriteFile path data ∈ trace (world_of (patchDroid options (World fs []))) →
  EvWriteFile path' data' ∈ trace (world_of (patchDroid options' (World fs' []))) →
  data = data'.
Proof.
  intros Hperm Hnd Hsame Hapart Hin Hin' Hev Hev'.
  assert (NoDup (map Patch.name (Options.patches options'))) as Hnd'
    by (by rewrite <- Hperm).
  assert (Forall sameLength (Options.patches options')) as Hsame'
    by (by rewrite <- Hperm).
  assert (apart buffer (Options.patches options')) as Hapart'.
  { intros p1 q1 p2 q2 [H1 H1'] [H2 H2'] Hd.
    apply Hapart; [split; [by rewrite Hperm | done] | split; [by rewrite Hperm | done] | done]. }
  destruct (patchDroid_written options fs path data Hev)
    as (b1 & m1 & results & ? & Hi1 & _ & Hc & _ & _ & _ & -> & _).
  destruct (patchDroid_written options' fs' path' data' Hev')
    as (b2 & m2 & results' & ? & Hi2 & _ & Hc' & _ & _ & _ & -> & _).
  rewrite Hin in Hi1. injection Hi1 as <- <-.
  rewrite Hin' in Hi2. injection Hi2 as <- <-.
  rewrite (applyPatches_writes _ _ _ Hc Hnd), (applyPatches_writes _ _ _ Hc' Hnd'). simpl.
  apply (patched_unique buffer (Options.patches options)).
  - by apply writes_patched.
  - apply (patched_Permutation buffer (Options.patches options')); [done|].
    by apply writes_patched.
Qed.

Lemma patch_order_irrelevant_witness :
  Buffer.from "dd--bb" = Buffer.from "dd--bb".
Proof.
  apply (patch_order_irrelevant
           (live "bin" [twin1; Patch.Make "other" "cc to dd" (Buffer.from "cc") (Buffer.from "dd")])
           (live "bin" [Patch.Make "other" "cc to dd" (Buffer.from "cc") (Buffer.from "dd"); twin1])
           (files swapped_world) (files swapped_world) (Buffer.from "cc--aa") 493 493
           "bin.patched" "bin.patched").
  - apply Permutation_swap.
  - vm_compute. repeat constructor; intros H;
      repeat (apply elem_of_cons in H as [H|H]; [discriminate|]); by apply elem_of_nil in H.
  - by repeat constructor.
  - intros patch1 pos1 patch2 pos2 [Hin1 Hpos1] [Hin2 Hpos2] Hdiff.
    apply elem_of_cons in Hin1 as [->|Hin1];
      [|apply list_elem_of_singleton in Hin1 as ->];
      (apply elem_of_cons in Hin2 as [->|Hin2];
        [|apply list_elem_of_singleton in Hin2 as ->]); try done;
      vm_compute in Hpos1, Hpos2;
      apply list_elem_of_singleton in Hpos1 as ->;
      apply list_elem_of_singleton in Hpos2 as ->; vm_compute; intuition congruence.
  - reflexivity.
  - reflexivity.
  - vm_compute. apply list_elem_of_further, list_elem_of_here.
  - vm_compute. apply list_elem_of_further, list_elem_of_here.
Defined.

(** ** The command line *)

Section CliAction.
Variable createAlias : option string → string → option bool → M unit.
Implicit Types options : CliOptions.t.

Lemma isCustom_checked buffer : is_Some (checkPatches buffer (cliPatches true false) []).
Proof. apply checkPatches_Some. repeat constructor. by apply checkPatch_total. Qed.

(** X12: what the program does with [--dry-run].  Without [--is-custom] it
    exits with 1 at once.  With it and [--dry-run], it never changes the
    world and never makes an alias; and when the binary can be read it
    exits with 0, also when the pattern is not in the binary and the
    engine's result has [success = false]. *)
Theorem cli_dry_run (alias : string) options (w : world) :
  (truthy (CliOptions.isCustom options) = false →
     action createAlias alias options w = Exit 1 w)
  ∧ (truthy (CliOptions.isCustom options) = true →
     truthy (CliOptions.dryRun options) = true →
     (action createAlias alias options w = Exit 0 w
      ∨ action createAlias alias options w = Exit 1 w)
     ∧ ∀ buffer mode,
         files w !! CliOptions.path options = Some (File buffer mode) →
         readable mode = true →
         action createAlias alias options w = Exit 0 w).
Proof.
  split; [intros H; unfold action; by rewrite H|].
  intros Hflag Hdry. unfold action. rewrite Hflag. cbn [negb].
  set (engine := Options.Make (CliOptions.path options) (CliOptions.output options)
                   (cliPatches true false) (CliOptions.dryRun options)
                   (CliOptions.backup options) (CliOptions.verbose options)).
  assert (∀ buffer mode,
            files w !! CliOptions.path options = Some (File buffer mode) →
            readable mode = true →
            ∃ r, patchDroid engine w = Returned r w) as Hret.
  { intros buffer mode Hin Hr. destruct (isCustom_checked buffer) as [results Hc].
    eexists. by apply (patchDroid_dryRun engine w buffer mode Hin Hr results Hc Hdry). }
  split.
  - destruct (patchDroid_cases engine w)
      as [[e ->] | (buffer & mode & Hin & Hr & _)]; [by right|].
    destruct (Hret buffer mode Hin Hr) as [r ->]. rewrite Hdry. by left.
  - intros buffer mode Hin Hr. destruct (Hret buffer mode Hin Hr) as [r ->]. by rewrite Hdry.
Qed.

Lemma outputPath_defined (engine : Options.t) (w w' : world) (r : RunResult.t) :
  default false (Options.dryRun engine) = false →
  patchDroid engine w = Returned r w' →
  RunResult.success r = true →
  ∃ path, RunResult.outputPath r = Some path
          ∧ ((RunResult.patchedCount r ≠ None ∧ path = finalOutputPath engine)
             ∨ (RunResult.noPatchNeeded r = Some true ∧ path = Options.inputPath engine)).
Proof.
  intros Hdry Hrun Hs.
  destruct (patchDroid_cases engine w)
    as [[e He] | (buffer & mode & Hin & Hr & [[_ Hh] | (results & Hc & Hcases)])];
    [congruence | congruence | ].
  destruct Hcases as [(Hd & _) | [(_ & _ & Hr') | (_ & _ & Hr')]].
  - congruence.
  - rewrite Hr' in Hrun. injection Hrun as <- _.
    destruct (forallb _ _); [|done]. eexists. split; [done|]. by right.
  - rewrite Hr' in Hrun. destruct (store _ _ _ _); [|done].
    destruct (verifyPatches _ _ _); [|done]. injection Hrun as <- _.
    eexists. split; [done|]. by left.
Qed.

Lemma patchDroid_comes_back (engine : Options.t) (w w' : world) :
  patchDroid engine w ≠ Hangs w'.
Proof.
  destruct (patchDroid_cases engine w)
    as [[e ->] | (buffer & mode & Hin & Hr & [[_ ->] | (results & Hc & Hcases)])];
    [done | done | ].
  destruct Hcases as [(_ & ->) | [(_ & _ & ->) | (_ & _ & ->)]]; [done | done |].
  destruct (store _ _ _ _); [|done]. by destruct (verifyPatches _ _ _).
Qed.

(** X13: the program without [--dry-run].  With [--is-custom], what it does
    follows the engine: when the engine returns [success = true], the alias
    is made for the path of the result, which is never undefined, the
    output path when the engine has written and the input path when the
    binary was already patched, and the program exits with 0 if
    [createAlias] returns and with 1 if it throws; when the engine returns
    [success = false] or throws, no alias is made and the program exits
    with 1.  So it exits with 0 only after a result with [success = true]
    and the making of the alias, and with 0 or 1 whenever it exits. *)
Theorem cli_exit_code (alias : string) options (w : world) :
  truthy (CliOptions.dryRun options) = false →
  (truthy (CliOptions.isCustom options) = true →
     (∀ r w',
        patchDroid (Options.Make (CliOptions.path options) (CliOptions.output options)
                      (cliPatches true false) (CliOptions.dryRun options)
                      (CliOptions.backup options) (CliOptions.verbose options)) w
        = Returned r w' →
        (RunResult.success r = true →
           ∃ path,
             RunResult.outputPath r = Some path
             ∧ ((RunResult.patchedCount r ≠ None
                 ∧ path = finalOutputPath
                            (Options.Make (CliOptions.path options) (CliOptions.output options)
                               (cliPatches true false) (CliOptions.dryRun options)
                               (CliOptions.backup options) (CliOptions.verbose options)))
                ∨ (RunResult.noPatchNeeded r = Some true ∧ path = CliOptions.path options))
             ∧ action createAlias alias options w =
               match createAlias (Some path) alias (CliOptions.verbose options) w' with
               | Returned _ w'' => Exit 0 w''
               | Threw _ w'' => Exit 1 w''
               | Hangs w'' => Never w''
               end)
        ∧ (RunResult.success r = false → action createAlias alias options w = Exit 1 w'))
     ∧ (∀ e w',
          patchDroid (Options.Make (CliOptions.path options) (CliOptions.output options)
                        (cliPatches true false) (CliOptions.dryRun options)
                        (CliOptions.backup options) (CliOptions.verbose options)) w
          = Threw e w' →
          action createAlias alias options w = Exit 1 w')
     ∧ (∀ w',
          patchDroid (Options.Make (CliOptions.path options) (CliOptions.output options)
                        (cliPatches true false) (CliOptions.dryRun options)
                        (CliOptions.backup options) (CliOptions.verbose options)) w
          ≠ Hangs w'))
  ∧ (∀ w'', action createAlias alias options w = Exit 0 w'' →
     ∃ r w' path,
       patchDroid (Options.Make (CliOptions.path options) (CliOptions.output options)
                     (cliPatches true false) (CliOptions.dryRun options)
                     (CliOptions.backup options) (CliOptions.verbose options)) w
       = Returned r w'
       ∧ RunResult.success r = true
       ∧ RunResult.outputPath r = Some path
       ∧ createAlias (Some path) alias (CliOptions.verbose options) w' = Returned tt w'')
  ∧ (∀ code w'', action createAlias alias options w = Exit code w'' → code = 0 ∨ code = 1).
Proof.
  intros Hdry. unfold action. rewrite Hdry.
  set (engine := Options.Make (CliOptions.path options) (CliOptions.output options)
                   (cliPatches true false) (CliOptions.dryRun options)
                   (CliOptions.backup options) (CliOptions.verbose options)).
  assert (default false (Options.dryRun engine) = false) as Hdry' by exact Hdry.
  split.
  { intros Hflag. rewrite Hflag. cbn [negb]. split; [|split].
    - intros r w' Hrun. fold engine. rewrite Hrun. split.
      + intros Hs. rewrite Hs.
        destruct (outputPath_defined engine w w' r Hdry' Hrun Hs) as (path & Hpath & Hwhich).
        exists path. split; [done|]. split; [done|]. rewrite Hpath.
        by destruct (createAlias (Some path) alias (CliOptions.verbose options) w').
      + intros Hs. by rewrite Hs.
    - intros e w' Hrun. fold engine. by rewrite Hrun.
    - intros w'. apply patchDroid_comes_back. }
  destruct (truthy (CliOptions.isCustom options)); cbn [negb];
    [|split; [done | intros code w'' [= <- _]; by right]].
  fold engine.
  destruct (patchDroid engine w) as [r w'|e w'|w'] eqn:Hrun;
    [|split; [done | intros code w'' [= <- _]; by right] | done].
  destruct (RunResult.success r) eqn:Hs; [|split; [done | intros code w'' [= <- _]; by right]].
  destruct (outputPath_defined engine w w' r Hdry' Hrun Hs) as (path & Hpath & _).
  rewrite Hpath.
  destruct (createAlias (Some path) alias (CliOptions.verbose options) w')
    as [[] w2|e w2|w2] eqn:Ha.
  - split; [|intros code w'' [= <- _]; by left].
    intros w'' [= <-]. by exists r, w', path.
  - split; [done | intros code w'' [= <- _]; by right].
  - done.
Qed.

End CliAction.

Lemma cli_dry_run_witness :
  (action (λ _ _ _, ret tt) "droid-custom"
     (CliOptions.Make (Some true) (Some true) "droid" None None None)
     (World {[ "droid"%string := File (Buffer.from "another binary") 493 ]} [])
   = Exit 0 (World {[ "droid"%string := File (Buffer.from "another binary") 493 ]} [])
   ∨ action (λ _ _ _, ret tt) "droid-custom"
       (CliOptions.Make (Some true) (Some true) "droid" None None None)
       (World {[ "droid"%string := File (Buffer.from "another binary") 493 ]} [])
     = Exit 1 (World {[ "droid"%string := File (Buffer.from "another binary") 493 ]} []))
  ∧ ∀ buffer mode,
      files (World {[ "droid"%string := File (Buffer.from "another binary") 493 ]} [])
        !! CliOptions.path (CliOptions.Make (Some true) (Some true) "droid" None None None)
      = Some (File buffer mode) →
      readable mode = true →
      action (λ _ _ _, ret tt) "droid-custom"
        (CliOptions.Make (Some true) (Some true) "droid" None None None)
        (World {[ "droid"%string := File (Buffer.from "another binary") 493 ]} [])
      = Exit 0 (World {[ "droid"%string := File (Buffer.from "another binary") 493 ]} []).
Proof.
  apply (proj2 (cli_dry_run (λ _ _ _, ret tt) "droid-custom"
                  (CliOptions.Make (Some true) (Some true) "droid" None None None)
                  (World {[ "droid"%string := File (Buffer.from "another binary") 493 ]} [])));
    reflexivity.
Defined.

Lemma cli_exit_code_witness :
  (truthy (CliOptions.isCustom (CliOptions.Make (Some true) None "droid" None None None)) = true →
     (∀ r w',
        patchDroid (Options.Make "droid" None (cliPatches true false) None None None) droid_world
        = Returned r w' →
        (RunResult.success r = true →
           ∃ path,
             RunResult.outputPath r = Some path
             ∧ ((RunResult.patchedCount r ≠ None
                 ∧ path = finalOutputPath
                            (Options.Make "droid" None (cliPatches true false) None None None))
                ∨ (RunResult.noPatchNeeded r = Some true ∧ path = "droid"%string))
             ∧ action (λ _ _ _, ret tt) "droid-custom"
                 (CliOptions.Make (Some true) None "droid" None None None) droid_world =
               match ret tt w' with
               | Returned _ w'' => Exit 0 w''
               | Threw _ w'' => Exit 1 w''
               | Hangs w'' => Never w''
               end)
        ∧ (RunResult.success r = false →
           action (λ _ _ _, ret tt) "droid-custom"
             (CliOptions.Make (Some true) None "droid" None None None) droid_world = Exit 1 w'))
     ∧ (∀ e w',
          patchDroid (Options.Make "droid" None (cliPatches true false) None None None) droid_world
          = Threw e w' →
          action (λ _ _ _, ret tt) "droid-custom"
            (CliOptions.Make (Some true) None "droid" None None None) droid_world = Exit 1 w')
     ∧ (∀ w',
          patchDroid (Options.Make "droid" None (cliPatches true false) None None None) droid_world
          ≠ Hangs w'))
  ∧ (∀ w'', action (λ _ _ _, ret tt) "droid-custom"
              (CliOptions.Make (Some true) None "droid" None None None) droid_world
            = Exit 0 w'' →
     ∃ r w' path,
       patchDroid (Options.Make "droid" None (cliPatches true false) None None None) droid_world
       = Returned r w'
       ∧ RunResult.success r = true
       ∧ RunResult.outputPath r = Some path
       ∧ ret tt w' = Returned tt w'')
  ∧ (∀ code w'', action (λ _ _ _, ret tt) "droid-custom"
                   (CliOptions.Make (Some true) None "droid" None None None) droid_world
                 = Exit code w'' → code = 0 ∨ code = 1).
Proof.
  apply (cli_exit_code (λ _ _ _, ret tt) "droid-custom"
           (CliOptions.Make (Some true) None "droid" None None None) droid_world).
  reflexivity.
Defined.

Example cli_patches_binary :
  ∃ w', action (λ _ _ _, ret tt) "droid-custom"
          (CliOptions.Make (Some true) None "droid" None None None) droid_world = Exit 0 w'
        ∧ files w' !! "droid.patched"%string
          = Some (File (Buffer.from "xxisCustom:!1yyisCustom:!1zz") 493).
Proof. eexists. split; [vm_compute; reflexivity | reflexivity]. Qed.

(** ** Nothing is removed *)

(** X14: the engine removes nothing.  Whatever a path held at the start of
    a run, it holds something at the end, however the run ends; and what was
    a directory is one still. *)
Theorem nothing_removed (options : Options.t) (w : world) (path : string) (n : node) :
  files w !! path = Some n →
  ∃ n', files (world_of (patchDroid options w)) !! path = Some n'
        ∧ (n = Directory → n' = Directory).
Proof.
  intros Hn.
  assert (∀ buffer mode,
            ∃ n1, files (afterBackup options buffer mode w) !! path = Some n1
                  ∧ (n = Directory → n1 = Directory)) as Hbackup.
  { intros buffer mode. unfold afterBackup.
    destruct (default true (Options.backup options)); simpl; [|by exists n].
    destruct (files w !! backupPath options) as [b|] eqn:Eb.
    - rewrite bool_decide_eq_true_2 by done. by exists n.
    - rewrite bool_decide_eq_false_2 by (by intros [? ?]). simpl.
      rewrite lookup_insert_ne by congruence. by exists n. }
  destruct (patchDroid_worlds options w)
    as [-> | (buffer & mode & Hin & Hd & [-> | (out & fs' & Hs & ->)])];
    [by exists n | apply Hbackup |].
  destruct (Hbackup buffer mode) as (n1 & Hn1 & Hdir).
  destruct (decide (path = finalOutputPath options)) as [->|Hne].
  - rewrite afterWrite_lookup. eexists. split; [done|]. intros Hd'.
    specialize (Hdir Hd'). subst n1. unfold store in Hs. rewrite Hn1 in Hs. done.
  - rewrite (afterWrite_frame _ _ _ _ _ Hs) by done. by exists n1.
Qed.

Lemma nothing_removed_witness :
  ∃ n', files (world_of (patchDroid output_over_backup backed_up_world))
          !! "droid.backup"%string = Some n'
        ∧ (File (Buffer.from "pristine") 420 = Directory → n' = Directory).
Proof.
  apply (nothing_removed output_over_backup backed_up_world "droid.backup"
           (File (Buffer.from "pristine") 420)).
  reflexivity.
Defined.
